(** * Particle emitter: pool, vectors, particles and emitter

    A shallow embedding of the TypeScript sources

      - [src/utils/Pool.ts]      (module [Pool])
      - [src/utils/Vector.ts]    (module [Vector])
      - [src/utils/Utility.ts]   (module [Utility], the integrators)
      - [src/core/Particle.ts]   (module [Particle])
      - [src/core/Emitter.ts]    (module [Emitter])

    JavaScript objects are references into explicit stores, so that the
    aliasing the sources rely on (one scratch vector shared by every
    particle, one options object handed to every pooled particle, the
    emitter's position handed to every spawn) is visible in the model.
    JavaScript numbers are IEEE 754 binary64 values, which is what Rocq's
    primitive floats are. *)

From Stdlib Require Import PrimFloat List Bool Arith Lia.
From Stdlib Require Import Floats NArith ZArith Permutation.
From Stdlib Require Uint63.
From Stdlib Require Import FunctionalExtensionality.
Import ListNotations.

(** An object reference.  [new] hands references out in increasing order,
    so two objects are the same object exactly when their references are
    equal (JavaScript's [===] on objects). *)
Definition ref := nat.

(** The interface a pooled class offers to [Pool]: its constructor,
    [new ObjectClass(options)].  [next_ref h] is the reference the next
    [new] returns and [construct o h] is the heap once the constructor,
    called with the options object [o], has run. *)
Class Constructor (Heap : Type) := {
  next_ref : Heap -> ref;
  construct : ref -> Heap -> Heap;
  next_ref_construct : forall o h, next_ref (construct o h) = S (next_ref h)
}.

(** The simplest heap: nothing but the allocation counter. *)
#[export] Instance counter_heap : Constructor nat := {
  next_ref h := h;
  construct _ h := S h;
  next_ref_construct _ _ := eq_refl
}.

(** ** Array primitives used by the pool *)

(** [Array.prototype.pop]: the last element and the array without it;
    [None] on the empty array (where JavaScript returns [undefined]). *)
Fixpoint pop {A} (l : list A) : option (A * list A) :=
  match l with
  | [] => None
  | [x] => Some (x, [])
  | x :: l' =>
      match pop l' with
      | Some (y, r) => Some (y, x :: r)
      | None => None
      end
  end.

(** [Array.prototype.indexOf] on references: the index of the first
    element [===] to [x]; [None] stands for [-1]. *)
Fixpoint indexOf (l : list ref) (x : ref) : option nat :=
  match l with
  | [] => None
  | y :: l' => if Nat.eqb y x then Some 0 else option_map S (indexOf l' x)
  end.

(** [array.splice(i, 1)]: the array without its element at index [i]. *)
Fixpoint splice1 {A} (i : nat) (l : list A) : list A :=
  match l, i with
  | [], _ => []
  | _ :: l', 0 => l'
  | x :: l', S j => x :: splice1 j l'
  end.

(** ** Pool.ts *)
Module Pool.
Section Pool.
Context {Heap : Type} `{Constructor Heap}.

(** The private arrays of a pool, its capacity and the options object
    it passes to every constructor call. *)
Record t := mk {
  allObjects : list ref;
  activeObjects : list ref;
  inactiveObjects : list ref;
  maxSize : nat;
  options : ref
}.

(** [createObject()]: [new this.ObjectClass(this.options)]. *)
Definition createObject (p : t) (h : Heap) : ref * Heap :=
  (next_ref h, construct (options p) h).

(** The loop of [init()]: [n] more iterations. *)
Fixpoint init_loop (n : nat) (p : t) (h : Heap) : t * Heap :=
  match n with
  | 0 => (p, h)
  | S n' =>
      let '(newObject, h') := createObject p h in
      init_loop n'
        (mk (allObjects p ++ [newObject]) (activeObjects p)
            (inactiveObjects p ++ [newObject]) (maxSize p) (options p))
        h'
  end.

Definition init (p : t) (h : Heap) : t * Heap := init_loop (maxSize p) p h.

(** [new Pool(ObjectClass, maxSize, options)].  The class is the
    [Constructor] instance, so the [ObjectNotProvidedError] guard never
    fires. *)
Definition new (maxSize : nat) (options : ref) (h : Heap) : t * Heap :=
  init (mk [] [] [] maxSize options) h.

(** [acquire()].  [pop] answers [Some] exactly when
    [inactiveObjects.length > 0]. *)
Definition acquire (p : t) (h : Heap) : option ref * t * Heap :=
  match pop (inactiveObjects p) with
  | Some (object, rest) =>
      (Some object,
       mk (allObjects p) (activeObjects p ++ [object]) rest
          (maxSize p) (options p),
       h)
  | None =>
      if length (allObjects p) <? maxSize p then
        let '(object, h') := createObject p h in
        (Some object,
         mk (allObjects p ++ [object]) (activeObjects p ++ [object])
            (inactiveObjects p) (maxSize p) (options p),
         h')
      else (None, p, h)
  end.

(** [release(object)].  The [else] branch only logs a warning. *)
Definition release (object : ref) (p : t) : t :=
  match indexOf (activeObjects p) object with
  | Some activeIndex =>
      let active' := splice1 activeIndex (activeObjects p) in
      match indexOf (inactiveObjects p) object with
      | None =>
          mk (allObjects p) active' (inactiveObjects p ++ [object])
             (maxSize p) (options p)
      | Some _ =>
          mk (allObjects p) active' (inactiveObjects p)
             (maxSize p) (options p)
      end
  | None => p
  end.

(** [getActivePool()] and the [length] getter. *)
Definition getActivePool (p : t) : list ref := activeObjects p.
Definition length (p : t) : nat := List.length (allObjects p).

(** *** Driving a pool *)

(** [k] calls of [acquire()] in a row: what each call returned, with
    the pool as that call left it. *)
Fixpoint acquire_seq (k : nat) (p : t) (h : Heap) : list (option ref * t) :=
  match k with
  | 0 => []
  | S k' =>
      let '(r, p', h') := acquire p h in
      (r, p') :: acquire_seq k' p' h'
  end.

(** A call a client can make. *)
Inductive call := Acquire | Release (object : ref).

Definition step (c : call) (s : t * Heap) : t * Heap :=
  match c with
  | Acquire => let '(_, p', h') := acquire (fst s) (snd s) in (p', h')
  | Release object => (release object (fst s), snd s)
  end.

(** The pool after the calls [cs], made in order. *)
Definition run (cs : list call) (s : t * Heap) : t * Heap :=
  fold_left (fun s c => step c s) cs s.

(** The three properties the specification calls the pool invariant. *)
Definition partitioned (p : t) : Prop :=
  (forall x, ~ (In x (activeObjects p) /\ In x (inactiveObjects p))) /\
  (forall x, In x (allObjects p) <->
             In x (activeObjects p) \/ In x (inactiveObjects p)) /\
  List.length (allObjects p) <= maxSize p.

End Pool.
Arguments t : clear implicits.
End Pool.

(** ** Objects and the global state *)

(** A [Vector] instance: its [values: [number, number]] pair.  The
    instance has the accessors [x] and [y] and nothing else: no property
    [0] or [1] and no [length]. *)
Record VectorObj := mkVector { values_0 : float; values_1 : float }.

(** What a caller can pass where the sources say [any]. *)
#[warnings="-register-all"]
Inductive value :=
| Undefined
| Number (n : float)
| VectorRef (r : ref)          (* a Vector (or Range) instance *)
| Array (elems : list value).  (* a JavaScript array *)

(** The fields of an options object that the core reads or writes.
    [lifeRange] is a [Range], a [Vector] whose [max] is [values[1]].
    [mass], [vx] and [vy] are getters on some option classes; the record
    holds what the getter answers. *)
Record OptionsObj := mkOptions {
  isStatic : bool;
  mass : float;
  lifespan : float;
  lifeRange : ref;
  alpha : float;
  radius : float;
  friction : float;
  gravity : value;
  density : float;
  vx : float;
  vy : float
}.

(** The one callback the repository passes to [Particle.init]:
    [Emitter.release], which hands the particle to [pool.release]. *)
Inductive callback_fn := EmitterRelease.

(** A [Particle] instance.  The four vectors are references: assigning a
    field rebinds it, calling a method on it mutates the shared object. *)
Record ParticleObj := mkParticle {
  id : nat;
  options : ref;
  position : ref;
  prevPosition : ref;
  velocity : ref;
  acceleration : ref;
  callback : option callback_fn;
  active : bool
}.

(** The whole state: the [__DEBUG__] global, the object stores with their
    allocation counters, the emitter (its position and its pool), the
    static fields of [Particle], and a ghost log with one entry, the
    particle passed, for every callback invocation. *)
Record world := mkWorld {
  DEBUG : bool;
  vectors : ref -> VectorObj;
  vectorCount : ref;
  optionsStore : ref -> OptionsObj;
  particles : ref -> ParticleObj;
  particleCount : ref;
  emitterPosition : ref;
  pool : Pool.t;
  normalizationConstant : float;
  smoothing_h : float;
  smoothing_h2 : float;
  callbackLog : list ref
}.

(** Store update. *)
Definition upd {A} (r : ref) (a : A) (f : ref -> A) : ref -> A :=
  fun r' => if Nat.eqb r' r then a else f r'.

Definition with_vectors (f : ref -> VectorObj) (n : ref) (w : world) : world :=
  mkWorld (DEBUG w) f n (optionsStore w) (particles w)
    (particleCount w) (emitterPosition w) (pool w) (normalizationConstant w)
    (smoothing_h w) (smoothing_h2 w) (callbackLog w).

Definition with_options (f : ref -> OptionsObj) (w : world) : world :=
  mkWorld (DEBUG w) (vectors w) (vectorCount w) f (particles w)
    (particleCount w) (emitterPosition w) (pool w) (normalizationConstant w)
    (smoothing_h w) (smoothing_h2 w) (callbackLog w).

Definition with_particles (f : ref -> ParticleObj) (n : ref) (w : world) : world :=
  mkWorld (DEBUG w) (vectors w) (vectorCount w) (optionsStore w) f
    n (emitterPosition w) (pool w) (normalizationConstant w)
    (smoothing_h w) (smoothing_h2 w) (callbackLog w).

Definition with_emitter (pos : ref) (p : Pool.t) (w : world) : world :=
  mkWorld (DEBUG w) (vectors w) (vectorCount w) (optionsStore w) (particles w)
    (particleCount w) pos p (normalizationConstant w)
    (smoothing_h w) (smoothing_h2 w) (callbackLog w).

Definition with_kernel (c h h2 : float) (w : world) : world :=
  mkWorld (DEBUG w) (vectors w) (vectorCount w) (optionsStore w) (particles w)
    (particleCount w) (emitterPosition w) (pool w) c h h2 (callbackLog w).

Definition with_log (l : list ref) (w : world) : world :=
  mkWorld (DEBUG w) (vectors w) (vectorCount w) (optionsStore w) (particles w)
    (particleCount w) (emitterPosition w) (pool w) (normalizationConstant w)
    (smoothing_h w) (smoothing_h2 w) l.

(** ** Computations: state and exceptions *)

Inductive error := InvalidArgumentError.

Inductive outcome (A : Type) :=
| Return (a : A) (w : world)
| Throw (e : error) (w : world).
Arguments Return {A} a w.
Arguments Throw {A} e w.

Definition M (A : Type) := world -> outcome A.

Definition ret {A} (a : A) : M A := fun w => Return a w.

Definition bind {A B} (c : M A) (k : A -> M B) : M B :=
  fun w => match c w with
           | Return a w' => k a w'
           | Throw e w' => Throw e w'
           end.

Definition throw {A} (e : error) : M A := fun w => Throw e w.
Definition gets {A} (f : world -> A) : M A := fun w => Return (f w) w.
Definition modify (f : world -> world) : M unit := fun w => Return tt (f w).

Declare Scope js_scope.
Delimit Scope js_scope with js.
Notation "x <- c1 ;; c2" := (bind c1 (fun x => c2))
  (at level 20, c1 at level 99, c2 at level 200, only parsing) : js_scope.
Notation "' pat <- c1 ;; c2" := (bind c1 (fun x => match x with pat => c2 end))
  (at level 20, pat pattern, c1 at level 99, c2 at level 200, only parsing)
  : js_scope.
Notation "c1 ;; c2" := (bind c1 (fun _ => c2))
  (at level 100, c2 at level 200, only parsing, right associativity) : js_scope.
Open Scope js_scope.

(** The state a computation ends in, however it ends. *)
Definition final {A} (o : outcome A) : world :=
  match o with Return _ w => w | Throw _ w => w end.

(** The module constant [zeroVector] of Particle.ts: the first vector
    ever allocated. *)
Definition zeroVector : ref := 0.

(** ** Vector.ts *)
Module Vector.

(** [Vector.isNumber]. *)
Definition isNumber (n : float) : bool := negb (is_nan n) && is_finite n.

Definition isNumberValue (v : value) : bool :=
  match v with Number n => isNumber n | _ => false end.

(** [Vector.isVector]. *)
Definition isVector (v : value) : bool :=
  match v with VectorRef _ => true | _ => false end.

(** [Vector.isArray(arg)], called without a length. *)
Definition isArray (v : value) : bool :=
  match v with Array elems => forallb isNumberValue elems | _ => false end.

(** [v[i]]: an element of an array; [undefined] past its end and on a
    [Vector], which has no indexed property. *)
Definition index (v : value) (i : nat) : value :=
  match v with
  | Array elems => nth i elems Undefined
  | _ => Undefined
  end.

(** [v.length > 1]; [undefined > 1] is false. *)
Definition length_gt_1 (v : value) : bool :=
  match v with Array elems => 1 <? List.length elems | _ => false end.

(** [v || 0.0] for [v] a number or [undefined]: zero, minus zero, NaN
    and [undefined] are falsy. *)
Definition or_zero (v : value) : float :=
  match v with
  | Number n => if (n =? 0)%float || is_nan n then 0%float else n
  | _ => 0%float
  end.

(** A destructured parameter with default [0.0]: the default is taken
    when the argument is missing or [undefined]. *)
Definition param (args : list value) (i : nat) : value :=
  match nth i args Undefined with
  | Undefined => Number 0
  | v => v
  end.

Definition number_of (v : value) : float :=
  match v with Number n => n | _ => 0%float end.

(** [Vector.processArgs(...args)]. *)
Definition processArgs (args : list value) : M (float * float) :=
  let x := param args 0 in
  let y := param args 1 in
  if List.length args =? 0 then ret (0%float, 0%float)
  else if isVector x || isArray x then
    let valX := or_zero (index x 0) in
    let valY := or_zero (if length_gt_1 x then index x 1 else Number valX) in
    ret (valX, valY)
  else if (List.length args =? 2) && isNumberValue x && isNumberValue y then
    ret (number_of x, number_of y)
  else if (List.length args =? 1) && isNumberValue x then
    ret (number_of x, number_of x)
  else
    debug <- gets DEBUG;;
    if debug then throw InvalidArgumentError
    else ret (0%float, 0%float).

(** The accessors.  The setters store [0] for anything not finite. *)
Definition get_x (this : ref) : M float :=
  gets (fun w => values_0 (vectors w this)).
Definition get_y (this : ref) : M float :=
  gets (fun w => values_1 (vectors w this)).

Definition guard (value : float) : float :=
  if isNumber value && negb (is_nan value) then value else 0%float.

Definition set_x (this : ref) (value : float) : M unit :=
  modify (fun w =>
    with_vectors
      (upd this (mkVector (guard value) (values_1 (vectors w this))) (vectors w))
      (vectorCount w) w).
Definition set_y (this : ref) (value : float) : M unit :=
  modify (fun w =>
    with_vectors
      (upd this (mkVector (values_0 (vectors w this)) (guard value)) (vectors w))
      (vectorCount w) w).

(** [new Vector(...args)]: a fresh instance with [values = [0, 0]],
    then the constructor body. *)
Definition new (args : list value) : M ref :=
  this <- gets vectorCount;;
  modify (fun w =>
    with_vectors (upd this (mkVector 0 0) (vectors w)) (S this) w);;
  '(x, y) <- processArgs args;;
  set_x this x;;
  set_y this y;;
  ret this.

(** [Vector.create(...args)]. *)
Definition create (args : list value) : M ref :=
  '(x, y) <- processArgs args;;
  new [Number x; Number y].

(** [set(x, y)]. *)
Definition set (this : ref) (x y : float) : M ref :=
  '(x', y') <- processArgs [Number x; Number y];;
  set_x this x';;
  set_y this y';;
  ret this.

(** [clone()]. *)
Definition clone (this : ref) : M ref :=
  x <- get_x this;;
  y <- get_y this;;
  new [Number x; Number y].

(** [copy(arg)]. *)
Definition copy (this : ref) (arg : value) : M ref :=
  match arg with
  | Undefined => clone this
  | VectorRef a =>
      x <- get_x a;;
      y <- get_y a;;
      set this x y
  | _ => ret this
  end.

(** [add(...args)], [subtract(...args)], [multiply(...args)]. *)
Definition add (this : ref) (args : list value) : M ref :=
  '(x, y) <- processArgs args;;
  tx <- get_x this;; set_x this (tx + x)%float;;
  ty <- get_y this;; set_y this (ty + y)%float;;
  ret this.

Definition subtract (this : ref) (args : list value) : M ref :=
  '(x, y) <- processArgs args;;
  tx <- get_x this;; set_x this (tx - x)%float;;
  ty <- get_y this;; set_y this (ty - y)%float;;
  ret this.

Definition multiply (this : ref) (args : list value) : M ref :=
  '(x, y) <- processArgs args;;
  tx <- get_x this;; set_x this (tx * x)%float;;
  ty <- get_y this;; set_y this (ty * y)%float;;
  ret this.

(** [divide(...args)]: [x !== 0] is false for both zeros. *)
Definition divide (this : ref) (args : list value) : M ref :=
  '(x, y) <- processArgs args;;
  (if negb (x =? 0)%float
   then tx <- get_x this;; set_x this (tx / x)%float
   else ret tt);;
  (if negb (y =? 0)%float
   then ty <- get_y this;; set_y this (ty / y)%float
   else ret tt);;
  ret this.

(** [magnitudeSq()] and [magnitude()]. *)
Definition magnitudeSq (this : ref) : M float :=
  x <- get_x this;;
  y <- get_y this;;
  ret (x * x + y * y)%float.

Definition magnitude (this : ref) : M float :=
  m <- magnitudeSq this;;
  ret (sqrt m).

(** [dot(...args)]: [Vector.create(args)] receives the rest array
    itself, as its single argument. *)
Definition dot (this : ref) (args : list value) : M float :=
  v <- create [Array args];;
  tx <- get_x this;; vx <- get_x v;;
  ty <- get_y this;; vy <- get_y v;;
  ret (tx * vx + ty * vy)%float.

(** [normalize()]. *)
Definition normalize (this : ref) : M ref :=
  mag <- magnitude this;;
  if negb (mag =? 0)%float
  then multiply this [Number (1 / mag)%float]
  else ret this.

(** The static [Vector.divide(v1, ...args)]. *)
Definition static_divide (v1 : value) (args : list value) : M ref :=
  target <- create [v1];;
  divide target args.

(** [Vector.randomDirection()].  [Math.random], [Math.cos] and
    [Math.sin] are outside the model: the caller supplies the cosine
    and sine of the angle drawn. *)
Definition randomDirection (cs : float * float) : M ref :=
  new [Number (fst cs); Number (snd cs)].

(** [Number.EPSILON], two to the power [-52]. *)
Definition EPSILON : float := 0x1p-52%float.

(** [cross(...args)], the rest array handed to [Vector.create] as in
    [dot]. *)
Definition cross (this : ref) (args : list value) : M float :=
  v <- create [Array args];;
  tx <- get_x this;; vy <- get_y v;;
  ty <- get_y this;; vx <- get_x v;;
  ret (tx * vy - ty * vx)%float.

(** The static [Vector.add(v1, v2)], [Vector.subtract(v1, ...args)] and
    [Vector.multiply(v1, ...args)]. *)
Definition static_add (v1 v2 : value) : M ref :=
  target <- create [v1];;
  add target [v2].

Definition static_subtract (v1 : value) (args : list value) : M ref :=
  target <- create [v1];;
  subtract target args.

Definition static_multiply (v1 : value) (args : list value) : M ref :=
  target <- create [v1];;
  multiply target args.

(** [distance(...args)]. *)
Definition distance (this : ref) (args : list value) : M float :=
  v <- create [Array args];;
  d <- static_subtract (VectorRef this) [VectorRef v];;
  magnitude d.

(** [limit(arg)] and [setMagnitude(arg)]; the guards only warn. *)
Definition limit (this : ref) (arg : float) : M ref :=
  if negb (isNumber arg) || (arg <? 0)%float then ret this
  else
    magSq <- magnitudeSq this;;
    if (arg * arg <? magSq)%float then
      scaled <- multiply this [Number (1 / sqrt magSq)%float];;
      multiply scaled [Number arg];;
      ret this
    else ret this.

Definition setMagnitude (this : ref) (arg : float) : M ref :=
  if negb (isNumber arg) || (arg <? 0)%float then ret this
  else
    magSq <- magnitudeSq this;;
    if (magSq =? 0)%float then ret this
    else
      unit <- normalize this;;
      multiply unit [Number arg].

(** [lerp(...args)]: the last argument is the amount, the ones before it
    go to [processArgs], and they do so before the amount is looked
    at. *)
Definition lerp (this : ref) (args : list value) : M ref :=
  let amt := match pop args with Some (a, _) => a | None => Undefined end in
  let rest := match pop args with Some (_, r) => r | None => [] end in
  '(x, y) <- processArgs rest;;
  match amt with
  | Number a =>
      if is_finite a then
        tx <- get_x this;; set_x this (tx + (x - tx) * a)%float;;
        ty <- get_y this;; set_y this (ty + (y - ty) * a)%float;;
        ret this
      else ret this
  | _ => ret this
  end.

(** The static [Vector.lerp(v1, v2, amt)]: [v2] is a vector, read
    through its accessors. *)
Definition static_lerp (v1 : value) (v2 : ref) (amt : value) : M ref :=
  target <- create [v1];;
  x <- get_x v2;;
  y <- get_y v2;;
  lerp target [Number x; Number y; amt].

(** [reflect(...args)]. *)
Definition reflect (this : ref) (args : list value) : M ref :=
  surfaceNormal <- create [Array args];;
  magSq <- magnitudeSq surfaceNormal;;
  if (magSq =? 0)%float then ret this
  else
    normal <- normalize surfaceNormal;;
    d <- dot this [VectorRef normal];;
    let projection := (2 * d)%float in
    scaled <- multiply normal [Number projection];;
    subtract this [VectorRef scaled].

(** [equals(...args)]. *)
Definition equals (this : ref) (args : list value) : M bool :=
  v <- create [Array args];;
  tx <- get_x this;; vx <- get_x v;;
  let xEqual := (abs (tx - vx) <? EPSILON)%float in
  ty <- get_y this;; vy <- get_y v;;
  let yEqual := (abs (ty - vy) <? EPSILON)%float in
  ret (xEqual && yEqual).

(** [clampToZero()] with its private helper. *)
Definition clamp_component (value : float) : float :=
  if (abs value <=? EPSILON)%float then 0%float else value.

Definition clampToZero (this : ref) : M ref :=
  tx <- get_x this;; set_x this (clamp_component tx);;
  ty <- get_y this;; set_y this (clamp_component ty);;
  ret this.

(** The methods a client can call on a vector, trigonometry apart. *)
Inductive method :=
| SetTo (x y : float)
| Clone
| Copy (arg : value)
| Add (args : list value)
| Subtract (args : list value)
| Multiply (args : list value)
| Divide (args : list value)
| Magnitude
| Dot (args : list value)
| Cross (args : list value)
| Distance (args : list value)
| Normalize
| Limit (arg : float)
| SetMagnitude (arg : float)
| Lerp (args : list value)
| Reflect (args : list value)
| Equals (args : list value)
| ClampToZero.

(** [this.m(...)], the value returned dropped. *)
Definition call (this : ref) (m : method) : M unit :=
  match m with
  | SetTo x y => set this x y;; ret tt
  | Clone => clone this;; ret tt
  | Copy arg => copy this arg;; ret tt
  | Add args => add this args;; ret tt
  | Subtract args => subtract this args;; ret tt
  | Multiply args => multiply this args;; ret tt
  | Divide args => divide this args;; ret tt
  | Magnitude => magnitude this;; ret tt
  | Dot args => dot this args;; ret tt
  | Cross args => cross this args;; ret tt
  | Distance args => distance this args;; ret tt
  | Normalize => normalize this;; ret tt
  | Limit arg => limit this arg;; ret tt
  | SetMagnitude arg => setMagnitude this arg;; ret tt
  | Lerp args => lerp this args;; ret tt
  | Reflect args => reflect this args;; ret tt
  | Equals args => equals this args;; ret tt
  | ClampToZero => clampToZero this;; ret tt
  end.

(** A client making calls one after the other, catching what they
    throw: the state after all of them. *)
Fixpoint calls (cs : list (ref * method)) (w : world) : world :=
  match cs with
  | [] => w
  | (this, m) :: cs' => calls cs' (final (call this m w))
  end.

End Vector.

(** ** Access to particles and options *)

Definition particle (p : ref) : M ParticleObj := gets (fun w => particles w p).
Definition options_of (p : ref) : M OptionsObj :=
  gets (fun w => optionsStore w (options (particles w p))).

Definition update_particle (p : ref) (f : ParticleObj -> ParticleObj) : M unit :=
  modify (fun w =>
    with_particles (upd p (f (particles w p)) (particles w)) (particleCount w) w).

Definition update_options (p : ref) (f : OptionsObj -> OptionsObj) : M unit :=
  modify (fun w =>
    let o := options (particles w p) in
    with_options (upd o (f (optionsStore w o)) (optionsStore w)) w).

Definition set_position (r : ref) (p : ParticleObj) : ParticleObj :=
  mkParticle (id p) (options p) r (prevPosition p) (velocity p)
    (acceleration p) (callback p) (active p).
Definition set_prevPosition (r : ref) (p : ParticleObj) : ParticleObj :=
  mkParticle (id p) (options p) (position p) r (velocity p)
    (acceleration p) (callback p) (active p).
Definition set_velocity (r : ref) (p : ParticleObj) : ParticleObj :=
  mkParticle (id p) (options p) (position p) (prevPosition p) r
    (acceleration p) (callback p) (active p).
Definition set_callback (c : option callback_fn) (p : ParticleObj) : ParticleObj :=
  mkParticle (id p) (options p) (position p) (prevPosition p) (velocity p)
    (acceleration p) c (active p).
Definition set_active (b : bool) (p : ParticleObj) : ParticleObj :=
  mkParticle (id p) (options p) (position p) (prevPosition p) (velocity p)
    (acceleration p) (callback p) b.

Definition set_lifespan (n : float) (o : OptionsObj) : OptionsObj :=
  mkOptions (isStatic o) (mass o) n (lifeRange o) (alpha o) (radius o)
    (friction o) (gravity o) (density o) (vx o) (vy o).
Definition set_alpha (n : float) (o : OptionsObj) : OptionsObj :=
  mkOptions (isStatic o) (mass o) (lifespan o) (lifeRange o) n (radius o)
    (friction o) (gravity o) (density o) (vx o) (vy o).
Definition set_density (n : float) (o : OptionsObj) : OptionsObj :=
  mkOptions (isStatic o) (mass o) (lifespan o) (lifeRange o) (alpha o) (radius o)
    (friction o) (gravity o) n (vx o) (vy o).

(** [for (const a of l) body(a)]. *)
Fixpoint for_of {A} (l : list A) (body : A -> M unit) : M unit :=
  match l with
  | [] => ret tt
  | a :: l' => body a;; for_of l' body
  end.

(** The body of [Emitter.release]: [this.pool.release(p)]. *)
Definition pool_release (p : ref) : M unit :=
  modify (fun w => with_emitter (emitterPosition w) (Pool.release p (pool w)) w).

(** [callback(p)]: the call is logged, then the callback runs. *)
Definition invoke (f : callback_fn) (p : ref) : M unit :=
  modify (fun w => with_log (callbackLog w ++ [p]) w);;
  match f with
  | EmitterRelease => pool_release p
  end.

(** [Math.PI]. *)
Definition PI : float := 0x1.921fb54442d18p+1%float.

(** ** Utility.ts *)
Module Utility.

(** [Utility.eulerUpdate(p, dt)], answering [(newPosition, oldPosition)].
    [p.applyForce] is the method of the object passed in; the caller
    hands it over as [applyForce]. *)
Definition eulerUpdate (applyForce : ref -> value -> M unit)
    (p : ref) (dt : float) : M (ref * ref) :=
  this <- particle p;;
  oldPosition <- Vector.clone (position this);;
  newPosition <- Vector.clone (position this);;
  Vector.add newPosition [VectorRef (velocity this)];;
  o <- options_of p;;
  applyForce p (gravity o);;
  scaled <- Vector.multiply (acceleration this) [Number (dt * dt)%float];;
  Vector.add (velocity this) [VectorRef scaled];;
  Vector.multiply (acceleration this) [Number 0];;
  ret (newPosition, oldPosition).

Import PrimInt63 Uint63.Uint63Notations.

(** [static #seed = 0]. *)
Definition seed0 : int := 0%uint63.

(** [#seededRandom]: the seed after a draw.  The seed starts at [0] and
    stays an integer below [233280], so every number the generator
    computes is an integer below [233280 * 9301 + 49297]: the binary64
    operations of the sources are exact on them, and 63-bit integers
    do not wrap; the seed is modelled as such an integer. *)
Definition next_seed (seed : int) : int :=
  ((seed * 9301 + 49297) mod 233280)%uint63.

(** [#seededRandom()]: the number drawn and the new seed. *)
Definition seededRandom (seed : int) : float * int :=
  let seed' := next_seed seed in
  ((of_uint63 seed' / 233280)%float, seed').

(** [Utility.random(min, max)]; [None] is an argument left out. *)
Definition random (min max : option float) (seed : int) : float * int :=
  let min := match min with Some m => m | None => 0%float end in
  let max := match max with Some m => m | None => 1%float end in
  let '(r, seed') := seededRandom seed in
  ((r * (max - min) + min)%float, seed').

(** The seed after [k] draws. *)
Fixpoint seed_after (k : nat) (seed : int) : int :=
  match k with
  | 0 => seed
  | S k' => seed_after k' (next_seed seed)
  end.

(** The number of seeds: [233280]. *)
Definition modulus : nat := N.to_nat 233280.

End Utility.

(** ** Particle.ts *)
Module Particle.

(** The state [new Particle(options)] leaves the new object in.  The
    identifier is [Utility.nextId()], a counter that only this
    constructor advances. *)
Definition fresh (n : nat) (options : ref) : ParticleObj :=
  mkParticle n options zeroVector zeroVector zeroVector zeroVector None false.

(** [init(callback, position, velocity)]. *)
Definition init (p : ref) (cb : callback_fn) (position velocity : ref) : M unit :=
  update_particle p (set_callback (Some cb));;
  update_particle p (set_active true);;
  update_particle p (set_position position);;
  prev <- Vector.clone position;;
  update_particle p (set_prevPosition prev);;
  update_particle p (set_velocity velocity);;
  this <- particle p;;
  Vector.multiply (acceleration this) [Number 0];;
  ret tt.

(** [destroy()]. *)
Definition destroy (p : ref) : M unit :=
  update_particle p (set_active false);;
  this <- particle p;;
  match callback this with
  | Some f => invoke f p
  | None => ret tt
  end;;
  update_particle p (set_callback None).

(** The [dead] getter. *)
Definition dead (p : ref) : M bool :=
  o <- options_of p;;
  ret (lifespan o <? 0)%float.

(** [applyForce(force)]. *)
Definition applyForce (p : ref) (force : value) : M unit :=
  o <- options_of p;;
  if isStatic o then ret tt
  else
    this <- particle p;;
    quotient <- Vector.static_divide force [Number (mass o)];;
    Vector.add (acceleration this) [VectorRef quotient];;
    ret tt.

(** [update(dt)]. *)
Definition update (p : ref) (dt : float) : M unit :=
  '(newPosition, oldPosition) <- Utility.eulerUpdate applyForce p dt;;
  update_particle p (set_prevPosition oldPosition);;
  update_particle p (set_position newPosition);;
  o <- options_of p;;
  update_options p (set_lifespan (lifespan o - dt)%float);;
  o <- options_of p;;
  max <- Vector.get_y (lifeRange o);;
  update_options p (set_alpha (lifespan o / (2 * max))%float);;
  o <- options_of p;;
  if (lifespan o <? 0)%float then destroy p else ret tt.

(** [n] calls of [update(dt)] in a row. *)
Fixpoint updates (n : nat) (p : ref) (dt : float) : M unit :=
  match n with
  | 0 => ret tt
  | S n' => update p dt;; updates n' p dt
  end.

(** A number used as a condition: zero, minus zero and NaN are falsy. *)
Definition truthy (n : float) : bool := negb ((n =? 0)%float || is_nan n).

(** [checkCollision(other)].  [dir] is the cosine and sine that
    [Vector.randomDirection()] draws when the distance is zero. *)
Definition checkCollision (p other : ref) (dir : float * float) : M unit :=
  this <- particle p;;
  that <- particle other;;
  c <- Vector.copy zeroVector (VectorRef (position that));;
  Vector.subtract c [VectorRef (position this)];;
  o1 <- options_of p;;
  o2 <- options_of other;;
  let sumRadius := (radius o1 + radius o2)%float in
  distance <- Vector.magnitude zeroVector;;
  if (distance <? sumRadius)%float then
    let overlap := (sumRadius - distance)%float in
    if (distance =? 0)%float then
      d <- Vector.randomDirection dir;;
      randomDirection <- Vector.multiply d [Number (overlap / 2)%float];;
      Vector.add (position this) [VectorRef randomDirection];;
      Vector.subtract (position that) [VectorRef randomDirection];;
      ret tt
    else
      Vector.normalize zeroVector;;
      let collisionNormal := zeroVector in
      correctionVector <- Vector.multiply zeroVector [Number (overlap / 2)%float];;
      Vector.add (position this) [VectorRef correctionVector];;
      Vector.subtract (position that) [VectorRef correctionVector];;
      c <- Vector.copy zeroVector (VectorRef (velocity this));;
      vRel <- Vector.subtract c [VectorRef (velocity that)];;
      speed <- Vector.dot vRel [VectorRef collisionNormal];;
      if truthy speed && (speed <? 0)%float then
        o1 <- options_of p;;
        o2 <- options_of other;;
        let mSum := (mass o1 + mass o2)%float in
        let mThisRatio := (2 * mass o2 / mSum)%float in
        let mOtherRatio := (2 * mass o1 / mSum)%float in
        impulse <- Vector.multiply collisionNormal [Number speed];;
        c <- Vector.copy zeroVector (VectorRef impulse);;
        scaled <- Vector.multiply c [Number mThisRatio];;
        Vector.subtract (velocity this) [VectorRef scaled];;
        scaled <- Vector.multiply impulse [Number mOtherRatio];;
        Vector.add (velocity that) [VectorRef scaled];;
        ret tt
      else ret tt
  else ret tt.

(** [#poly6KernelSq(r2)]. *)
Definition poly6KernelSq (r2 : float) : M float :=
  h2 <- gets smoothing_h2;;
  if (h2 <? r2)%float then ret 0%float
  else
    let diff := (h2 - r2)%float in
    c <- gets normalizationConstant;;
    ret (c * diff * diff * diff)%float.

(** [setSmoothingRadius(h)]. *)
Definition setSmoothingRadius (h : float) : M unit :=
  let h2 := (h * h)%float in
  let h4 := (h2 * h2)%float in
  let h8 := (h4 * h4)%float in
  modify (with_kernel ((4 / PI) / h8)%float h h2).

(** [calculateDensities(particles, smoothingRadius)]. *)
Definition calculateDensities (ps : list ref) (smoothingRadius : float) : M unit :=
  tempVector <- Vector.new [Number 0; Number 0];;
  setSmoothingRadius smoothingRadius;;
  kernel0 <- poly6KernelSq 0;;
  for_of ps (fun p1 =>
    o1 <- options_of p1;;
    update_options p1 (set_density (mass o1 * kernel0)%float);;
    for_of ps (fun p2 =>
      if Nat.eqb p1 p2 then ret tt
      else
        this <- particle p1;;
        that <- particle p2;;
        c <- Vector.copy tempVector (VectorRef (position this));;
        d <- Vector.subtract c [VectorRef (position that)];;
        distanceSq <- Vector.magnitudeSq d;;
        o2 <- options_of p2;;
        k <- poly6KernelSq distanceSq;;
        let densityContribution := (mass o2 * k)%float in
        o1 <- options_of p1;;
        update_options p1 (set_density (density o1 + densityContribution)%float))).

(** [reset()]. *)
Definition reset (p : ref) : M unit :=
  update_particle p (set_active false);;
  update_particle p (set_position zeroVector);;
  update_particle p (set_velocity zeroVector).

(** [checkBoundaries(ctx)], with [ctx.width] and [ctx.height]. *)
Definition checkBoundaries (p : ref) (width height : float) : M unit :=
  this <- particle p;;
  o <- options_of p;;
  x <- Vector.get_x (position this);;
  (if (width - radius o <? x)%float then
     Vector.set_x (position this) (width - radius o)%float;;
     ux <- Vector.get_x (velocity this);;
     Vector.set_x (velocity this) (ux * -1)%float
   else if (x <? radius o)%float then
     Vector.set_x (position this) (radius o);;
     ux <- Vector.get_x (velocity this);;
     Vector.set_x (velocity this) (ux * -1)%float
   else ret tt);;
  y <- Vector.get_y (position this);;
  if (height - radius o <? y)%float then
    Vector.set_y (position this) (height - radius o)%float;;
    uy <- Vector.get_y (velocity this);;
    Vector.set_y (velocity this) (uy * -1)%float
  else if (y <? radius o)%float then
    Vector.set_y (position this) (radius o);;
    uy <- Vector.get_y (velocity this);;
    Vector.set_y (velocity this) (uy * -1)%float
  else ret tt.

End Particle.

(** [Particle] as a pooled class: [new Particle(options)] on the world. *)
#[export] Instance particle_class : Constructor world := {
  next_ref w := particleCount w;
  construct o w :=
    with_particles
      (upd (particleCount w) (Particle.fresh (particleCount w) o) (particles w))
      (S (particleCount w)) w;
  next_ref_construct _ _ := eq_refl
}.

(** ** Emitter.ts *)
Module Emitter.

(** [new Emitter(options)]: [position] is [options.position];
    [pOptions] is the [SmokeOptions] object the constructor makes and
    [capacity] is [Constants.MAX_PARTICLES]. *)
Definition new (position pOptions : ref) (capacity : nat) : M unit :=
  pos <- Vector.clone position;;
  modify (fun w =>
    let '(p, w') := Pool.new capacity pOptions w in
    with_emitter pos p w').

(** The [length] getter. *)
Definition length : M nat := gets (fun w => Pool.length (pool w)).

(** [release(p)]. *)
Definition release (p : ref) : M unit := pool_release p.

(** [this.pool.acquire()]: the pool of the emitter, with the world as
    the heap its particles are constructed in. *)
Definition acquire : M (option ref) :=
  fun w =>
    let '(r, p', w') := Pool.acquire (pool w) w in
    Return r (with_emitter (emitterPosition w') p' w').

(** [addParticles()]. *)
Definition addParticles : M unit :=
  acquired <- acquire;;
  match acquired with
  | None => ret tt
  | Some p =>
      o <- options_of p;;
      velocity <- Vector.new [Number (vx o); Number (vy o)];;
      position <- gets emitterPosition;;
      Particle.init p EmitterRelease position velocity
  end.

(** [n] calls of [addParticles()] in a row. *)
Fixpoint spawn (n : nat) : M unit :=
  match n with
  | 0 => ret tt
  | S n' => addParticles;; spawn n'
  end.

End Emitter.

(** ** Further definitions used by the statements below *)

(** What the pool keeps true, beyond [Pool.partitioned]: no object is
    listed twice, and the pool is filled to its capacity, so that
    [acquire()] never constructs. *)
Definition pool_wf (p : Pool.t) : Prop :=
  NoDup (Pool.activeObjects p) /\
  NoDup (Pool.inactiveObjects p) /\
  Pool.partitioned p /\
  length (Pool.allObjects p) = Pool.maxSize p.

(** The size of a pool and the size of its two partitions together. *)
Definition sized (n : nat) (p : Pool.t) : Prop :=
  Pool.length p = n /\
  length (Pool.activeObjects p) + length (Pool.inactiveObjects p) = n.

(** *** Running the model *)

(** What the options store holds where the configuration code has put
    no options object: a placeholder with every number [0] and
    [zeroVector] as its [lifeRange].  It stands for none of the option
    classes of the repository (which define no [radius] and own a
    [Range(0, 0)] each); a run whose result depends on the options puts
    its own object with [put_options]. *)
Definition default_options : OptionsObj :=
  mkOptions false 0 0 zeroVector 0 0 0 Undefined 0 0 0.

(** The state once the modules are loaded: [zeroVector] is the only
    vector, no particle has been constructed, no emitter exists. *)
Definition initial (debug : bool) : world :=
  mkWorld debug (fun _ => mkVector 0 0) 1 (fun _ => default_options)
    (fun r => Particle.fresh r 0) 0 zeroVector (Pool.mk [] [] [] 0 0) 0 0 0 [].

(** An options object made by the configuration code. *)
Definition put_options (o : ref) (x : OptionsObj) : M unit :=
  modify (fun w => with_options (upd o x (optionsStore w)) w).

(** [new Particle(options)]. *)
Definition new_particle (o : ref) : M ref :=
  fun w => Return (next_ref w) (construct o w).

(** What a computation returned, if it did. *)
Definition result {A} (o : outcome A) : option A :=
  match o with Return a _ => Some a | Throw _ _ => None end.

(** The components of a vector. *)
Definition read (r : ref) : M VectorObj := gets (fun w => vectors w r).

(** What can be seen of a particle: its four vectors, its [active] flag,
    its remaining [lifespan] and the callback log. *)
Record view := mkView {
  at_position : VectorObj;
  at_prevPosition : VectorObj;
  at_velocity : VectorObj;
  at_acceleration : VectorObj;
  is_active : bool;
  remaining : float;
  called : list ref
}.

Definition observe (p : ref) : M view :=
  gets (fun w =>
    let q := particles w p in
    mkView (vectors w (position q)) (vectors w (prevPosition q))
      (vectors w (velocity q)) (vectors w (acceleration q)) (active q)
      (lifespan (optionsStore w (options q))) (callbackLog w)).

(** A particle with its own options object [o], made active at
    [(px, py)] with velocity [(ux, uy)].  Its [lifeRange] is
    [Range(2, 5)]. *)
Definition activate (o : ref) (opts : ref -> OptionsObj)
    (px py ux uy : float) : M ref :=
  range <- Vector.new [Number 2; Number 5];;
  put_options o (opts range);;
  p <- new_particle o;;
  pos <- Vector.new [Number px; Number py];;
  vel <- Vector.new [Number ux; Number uy];;
  Particle.init p EmitterRelease pos vel;;
  ret p.

(** [v = new Vector(1, 2); w = new Vector(3, 4); v.add(w)], and the same
    with [subtract] and with the scalar [5]. *)
Definition add_case : M VectorObj :=
  v <- Vector.new [Number 1; Number 2];;
  w <- Vector.new [Number 3; Number 4];;
  Vector.add v [VectorRef w];;
  read v.

Definition subtract_case : M VectorObj :=
  v <- Vector.new [Number 1; Number 2];;
  w <- Vector.new [Number 3; Number 4];;
  Vector.subtract v [VectorRef w];;
  read v.

Definition add_scalar_case : M VectorObj :=
  v <- Vector.new [Number 1; Number 2];;
  Vector.add v [Number 5];;
  read v.

(** One Euler step with [dt = 0.5] of a particle of mass [2] at
    [(10, 20)] with velocity [(1, 2)] under gravity [(0, 1)]. *)
Definition euler_case : M view :=
  g <- Vector.new [Number 0; Number 1];;
  p <- activate 0
         (fun range => mkOptions false 2 5 range 1 1 0 (VectorRef g) 0 0 0)
         10 20 1 2;;
  Particle.update p 0.5;;
  observe p.

(** Two particles of mass [1] and radius [1], at [(0, 0)] and [(1, 0)],
    with velocities [(ua, 0)] and [(ub, 0)]: [a.checkCollision(b)]. *)
Definition collision_case (ua ub : float) : M (view * view) :=
  a <- activate 0
         (fun range => mkOptions false 1 5 range 1 1 0 Undefined 0 0 0)
         0 0 ua 0;;
  b <- activate 1
         (fun range => mkOptions false 1 5 range 1 1 0 Undefined 0 0 0)
         1 0 ub 0;;
  Particle.checkCollision a b (1%float, 0%float);;
  va <- observe a;;
  vb <- observe b;;
  ret (va, vb).

(** A particle with [lifespan = 1.0] after [n] updates with [dt = 0.5]. *)
Definition life_case (n : nat) : M view :=
  p <- activate 0
         (fun range => mkOptions false 2 1 range 1 1 0 Undefined 0 0 0)
         10 20 1 2;;
  Particle.updates n p 0.5;;
  observe p.

(** *** Specifications *)

(** [c], run in [w], returns (it does not throw), and [Q] holds of the
    value returned and of the state left. *)
Definition returns {A} (c : M A) (w : world) (Q : A -> world -> Prop) : Prop :=
  match c w with
  | Return a w' => Q a w'
  | Throw _ _ => False
  end.

(** The class invariant of [Vector]: both components of every vector are
    finite numbers. *)
Definition finite (w : world) : Prop :=
  forall r,
    Vector.isNumber (values_0 (vectors w r)) = true /\
    Vector.isNumber (values_1 (vectors w r)) = true.

(** Everything in a state but its vectors. *)
Definition frame (w : world) :=
  (DEBUG w, optionsStore w, particles w, particleCount w, emitterPosition w,
   pool w, (normalizationConstant w, smoothing_h w, smoothing_h2 w),
   callbackLog w).

(** The argument lists [Vector.processArgs] has a case for. *)
Definition accepted (args : list value) : bool :=
  let x := Vector.param args 0 in
  let y := Vector.param args 1 in
  (length args =? 0) || Vector.isVector x || Vector.isArray x ||
  ((length args =? 2) && Vector.isNumberValue x && Vector.isNumberValue y) ||
  ((length args =? 1) && Vector.isNumberValue x).

(** A particle that [applyForce] can serve under [__DEBUG__]: it is
    static, or its mass is a finite number and its gravity is a value
    [processArgs] has a case for. *)
Definition forceable (w : world) (p : ref) : Prop :=
  let o := optionsStore w (options (particles w p)) in
  isStatic o = true \/
  (Vector.isNumber (mass o) = true /\ accepted [gravity o] = true).

(** The divisor a caller passes to [divide], as the specification reads
    the arguments: a scalar, standing for both components; a pair of
    components, as two arguments or as one array; or another vector,
    standing for its components. *)
Definition divisor (w : world) (args : list value) : option (float * float) :=
  match args with
  | [Number s] =>
      if Vector.isNumber s then Some (s, s) else None
  | [Number a; Number b] | [Array [Number a; Number b]] =>
      if Vector.isNumber a && Vector.isNumber b then Some (a, b) else None
  | [VectorRef r] => Some (values_0 (vectors w r), values_1 (vectors w r))
  | _ => None
  end.

(** The Poly6 kernel for the smoothing radius [h], on a squared
    distance: [normalization * (h^2 - r^2)^3] within the radius and [0]
    outside it, where [normalization] is [4 / pi / h^8]; the products
    are taken in the order the sources take them. *)
Definition poly6 (h r2 : float) : float :=
  let h2 := (h * h)%float in
  let normalization := (4 / PI / (h2 * h2 * (h2 * h2)))%float in
  if (h2 <? r2)%float then 0%float
  else (normalization * (h2 - r2) * (h2 - r2) * (h2 - r2))%float.

(** [w'] comes from [w] by operations on vectors: the vectors are still
    finite, nothing but vectors has changed, and no vector was lost. *)
Definition evolves (w w' : world) : Prop :=
  finite w' /\ frame w' = frame w /\ vectorCount w <= vectorCount w'.

(** What one [update(dt)] of the particle [p] does, the vectors apart:
    the lifespan in its options goes down by [dt]; when this takes it
    below zero the particle is made inactive, its callback, if it has
    one, is called once, and the callback is cleared; otherwise the
    particle keeps its flag and its callback and nothing is called. *)
Definition aged (p : ref) (dt : float) (w w' : world) : Prop :=
  let o := options (particles w p) in
  let left := (lifespan (optionsStore w o) - dt)%float in
  DEBUG w' = DEBUG w /\
  options (particles w' p) = o /\
  lifespan (optionsStore w' o) = left /\
  isStatic (optionsStore w' o) = isStatic (optionsStore w o) /\
  mass (optionsStore w' o) = mass (optionsStore w o) /\
  gravity (optionsStore w' o) = gravity (optionsStore w o) /\
  if (left <? 0)%float then
    active (particles w' p) = false /\
    callback (particles w' p) = None /\
    callbackLog w' =
      callbackLog w ++ match callback (particles w p) with
                       | Some _ => [p]
                       | None => []
                       end
  else
    active (particles w' p) = active (particles w p) /\
    callback (particles w' p) = callback (particles w p) /\
    callbackLog w' = callbackLog w.

(** An emitter in order, with [o] the options object of its pool: the
    vectors are finite; the pool is well formed and its two partitions
    fill its capacity; every pooled particle has the options object [o],
    whose [vx] and [vy] are finite; the emitter's position is a vector
    that exists; and every active particle has the emitter's position
    object as its [position], and a [prevPosition] made after it. *)
Definition emitting (o : ref) (w : world) : Prop :=
  finite w /\
  pool_wf (pool w) /\
  sized (Pool.maxSize (pool w)) (pool w) /\
  (forall q, In q (Pool.allObjects (pool w)) -> options (particles w q) = o) /\
  Vector.isNumber (vx (optionsStore w o)) = true /\
  Vector.isNumber (vy (optionsStore w o)) = true /\
  emitterPosition w < vectorCount w /\
  (forall q, In q (Pool.activeObjects (pool w)) ->
     position (particles w q) = emitterPosition w /\
     emitterPosition w < prevPosition (particles w q)).

(** An emitter at [(10, 20)] with room for two particles spawns one and
    updates it once; then it spawns a second, and [x] of the second
    one's position is set to [42].  The answer is the position of the
    first particle, of the second and of the emitter. *)
Definition rebound_case : M (VectorObj * VectorObj * VectorObj) :=
  range <- Vector.new [Number 2; Number 5];;
  put_options 0 (mkOptions false 2 5 range 1 1 0 Undefined 0 0 0);;
  origin <- Vector.new [Number 10; Number 20];;
  Emitter.new origin 0 2;;
  Emitter.addParticles;;
  a <- gets (fun w => last (Pool.activeObjects (pool w)) 0);;
  Particle.update a 0.5;;
  Emitter.addParticles;;
  b <- gets (fun w => last (Pool.activeObjects (pool w)) 0);;
  second <- particle b;;
  Vector.set_x (position second) 42;;
  first <- particle a;;
  e <- gets emitterPosition;;
  va <- read (position first);;
  vb <- read (position second);;
  ve <- read e;;
  ret (va, vb, ve).


(** *** Further specifications *)

(** The state with the vector [r] replaced, and with a new vector. *)
Definition store (r : ref) (v : VectorObj) (w : world) : world :=
  with_vectors (upd r v (vectors w)) (vectorCount w) w.

Definition alloc (v : VectorObj) (w : world) : world :=
  with_vectors (upd (vectorCount w) v (vectors w)) (S (vectorCount w)) w.

(** Every vector that exists in [w] is in [w'] what it was. *)
Definition preserved (w w' : world) : Prop :=
  forall r, r < vectorCount w -> vectors w' r = vectors w r.

(** However [c] ends, returning or throwing, it leaves the vectors
    finite and changes nothing but vectors. *)
Definition keeps {A} (c : M A) : Prop :=
  forall w, finite w ->
    finite (final (c w)) /\ frame (final (c w)) = frame w.

(** The integers [a], [a + 1], ... ([n] of them). *)
Fixpoint upto (n : nat) (a : PrimInt63.int) : list PrimInt63.int :=
  match n with
  | 0 => []
  | S n' => a :: upto n' (Uint63.succ a)
  end.

(** The seeds the generator goes through in [n] draws from [seed]. *)
Fixpoint orbit (n : nat) (seed : PrimInt63.int) : list PrimInt63.int :=
  match n with
  | 0 => []
  | S n' => Utility.next_seed seed :: orbit n' (Utility.next_seed seed)
  end.

(** The methods of a particle and of the emitter that a client calls. *)
Inductive action :=
| NewEmitter (position pOptions : ref) (capacity : nat)
| AddParticles
| Init (p position velocity : ref)
| Destroy (p : ref)
| Reset (p : ref)
| ApplyForce (p : ref) (force : value)
| Update (p : ref) (dt : float)
| CheckCollision (p other : ref) (dir : float * float)
| CheckBoundaries (p : ref) (width height : float)
| CalculateDensities (ps : list ref) (h : float).

Definition act (a : action) : M unit :=
  match a with
  | NewEmitter position pOptions capacity =>
      Emitter.new position pOptions capacity
  | AddParticles => Emitter.addParticles
  | Init p position velocity => Particle.init p EmitterRelease position velocity
  | Destroy p => Particle.destroy p
  | Reset p => Particle.reset p
  | ApplyForce p force => Particle.applyForce p force
  | Update p dt => Particle.update p dt
  | CheckCollision p other dir => Particle.checkCollision p other dir
  | CheckBoundaries p width height => Particle.checkBoundaries p width height
  | CalculateDensities ps h => Particle.calculateDensities ps h
  end.

(** A client making calls one after the other, catching what they
    throw: the state after all of them. *)
Fixpoint acts (l : list action) (w : world) : world :=
  match l with
  | [] => w
  | a :: l' => acts l' (final (act a w))
  end.

(** Every particle has [zeroVector] itself as its [acceleration]. *)
Definition shared_acceleration (w : world) : Prop :=
  forall q, acceleration (particles w q) = zeroVector.

(** However [c] ends, it leaves the vectors finite and the
    accelerations shared. *)
Definition steady {A} (c : M A) : Prop :=
  forall w, finite w -> shared_acceleration w ->
    finite (final (c w)) /\ shared_acceleration (final (c w)).

(** What the frame loop does with an emitter: it asks it for a
    particle, or it updates one of its particles. *)
Inductive tick :=
| Spawn
| Step (p : ref) (dt : float).

(** The particle the next [this.pool.acquire()] returns, if any. *)
Definition next_spawn : M (option ref) :=
  gets (fun w => fst (fst (Pool.acquire (pool w) w))).

(** The calls [ts], made in order.  [unmoved] lists the particles that
    have been spawned and not updated since: a spawn puts the particle
    it took from the pool on the list, an update takes the particle it
    updates off it.  The list is what the run answers. *)
Fixpoint loop (ts : list tick) (unmoved : list ref) : M (list ref) :=
  match ts with
  | [] => ret unmoved
  | Spawn :: ts' =>
      taken <- next_spawn;;
      Emitter.addParticles;;
      loop ts' (match taken with Some p => p :: unmoved | None => unmoved end)
  | Step p dt :: ts' =>
      Particle.update p dt;;
      loop ts' (remove Nat.eq_dec p unmoved)
  end.

(** Options [applyForce] can serve under [__DEBUG__]; [forceable w p]
    says this of the options of [p]. *)
Definition servable (x : OptionsObj) : Prop :=
  isStatic x = true \/
  (Vector.isNumber (mass x) = true /\ accepted [gravity x] = true).

(** A call the frame loop can make on an emitter whose pooled particles
    are [all] and were given the options [x]: an update is of one of
    these particles, with a time step whose square is finite, and the
    options are such that it does not throw. *)
Definition pooled (x : OptionsObj) (all : list ref) (t : tick) : Prop :=
  match t with
  | Spawn => True
  | Step p dt =>
      In p all /\ Vector.isNumber (dt * dt) = true /\ servable x
  end.

(** An emitter in use, with [all] its pooled particles, [o] their
    options object, which started as [x], [E] its position object and
    [unmoved] the particles spawned and not updated since: as
    [emitting], but an active particle has [E] as its position exactly
    when it is in [unmoved]. *)
Definition tracking (all : list ref) (o : ref) (x : OptionsObj) (E : ref)
    (unmoved : list ref) (w : world) : Prop :=
  finite w /\
  pool_wf (pool w) /\
  sized (Pool.maxSize (pool w)) (pool w) /\
  Pool.allObjects (pool w) = all /\
  (forall q, In q all -> options (particles w q) = o) /\
  Vector.isNumber (vx (optionsStore w o)) = true /\
  Vector.isNumber (vy (optionsStore w o)) = true /\
  (isStatic (optionsStore w o) = isStatic x /\
   mass (optionsStore w o) = mass x /\
   gravity (optionsStore w o) = gravity x) /\
  emitterPosition w = E /\
  E < vectorCount w /\
  (forall q, In q (Pool.activeObjects (pool w)) ->
     (position (particles w q) = E <-> In q unmoved) /\
     E < prevPosition (particles w q)).

(** * Properties *)

(** ** Arrays *)

Lemma pop_app {A} (l : list A) (x : A) : pop (l ++ [x]) = Some (x, l).
Proof.
  induction l as [|a l IH]; [reflexivity|].
  change ((a :: l) ++ [x]) with (a :: (l ++ [x])).
  destruct (l ++ [x]) as [|b m] eqn:E.
  - destruct l; discriminate.
  - cbn [pop]. cbn [pop] in IH. rewrite IH. reflexivity.
Qed.

Lemma pop_Some {A} (l r : list A) (x : A) : pop l = Some (x, r) -> l = r ++ [x].
Proof.
  destruct l as [|a l] using rev_ind; [discriminate|].
  rewrite pop_app. intros [= -> ->]. reflexivity.
Qed.

Lemma pop_None {A} (l : list A) : pop l = None -> l = [].
Proof.
  destruct l as [|a l] using rev_ind; [reflexivity|].
  rewrite pop_app. discriminate.
Qed.

Lemma indexOf_None (l : list ref) (x : ref) : indexOf l x = None <-> ~ In x l.
Proof.
  induction l as [|y l IH]; cbn.
  - tauto.
  - destruct (Nat.eqb_spec y x) as [->|Hne].
    + split; [discriminate | intros []; now left].
    + destruct (indexOf l x); cbn; split; try discriminate; try tauto.
      intros Hn. exfalso. apply Hn. right.
      destruct (in_dec Nat.eq_dec x l) as [Hi|Hi]; [exact Hi|].
      apply IH in Hi. discriminate.
Qed.

Lemma indexOf_Some_In (l : list ref) (x : ref) (i : nat) :
  indexOf l x = Some i -> In x l.
Proof.
  intros E. destruct (in_dec Nat.eq_dec x l) as [Hi|Hi]; [exact Hi|].
  apply indexOf_None in Hi. congruence.
Qed.

Lemma indexOf_last (l : list ref) (x : ref) :
  ~ In x l -> indexOf (l ++ [x]) x = Some (length l).
Proof.
  induction l as [|y l IH]; cbn; intros Hn.
  - now rewrite Nat.eqb_refl.
  - destruct (Nat.eqb_spec y x) as [->|Hne]; [tauto|].
    rewrite IH by tauto. reflexivity.
Qed.

Lemma splice1_last {A} (l : list A) (x : A) : splice1 (length l) (l ++ [x]) = l.
Proof. induction l as [|y l IH]; cbn; [reflexivity | now rewrite IH]. Qed.

Lemma splice1_In (l : list ref) (x : ref) (i : nat) :
  indexOf l x = Some i -> NoDup l ->
  forall y, In y (splice1 i l) <-> In y l /\ y <> x.
Proof.
  revert i. induction l as [|a l IH]; cbn; intros i E Hnd y; [discriminate|].
  inversion Hnd as [|? ? Ha Hl]; subst.
  destruct (Nat.eqb_spec a x) as [->|Hne].
  - injection E as <-. split.
    + intros Hy. split; [now right | intros ->; tauto].
    + intros [[->|Hy] Hyx]; tauto.
  - destruct (indexOf l x) as [j|] eqn:Ej; [|discriminate].
    injection E as <-. cbn. rewrite (IH j eq_refl Hl y).
    split.
    + intros [->|[Hy Hyx]]; split; auto.
    + intros [[->|Hy] Hyx]; auto.
Qed.

Lemma splice1_incl {A} (l : list A) (i : nat) (y : A) :
  In y (splice1 i l) -> In y l.
Proof.
  revert i. induction l as [|a l IH]; intros [|i]; cbn; auto.
  intros [->|Hy]; eauto.
Qed.

Lemma splice1_NoDup {A} (l : list A) (i : nat) : NoDup l -> NoDup (splice1 i l).
Proof.
  revert i. induction l as [|a l IH]; intros i Hnd; [destruct i; exact Hnd|].
  inversion Hnd as [|? ? Ha Hl]; subst.
  destruct i as [|i]; cbn; [exact Hl|].
  constructor; [|now apply IH].
  intros Hin. apply Ha. eapply splice1_incl, Hin.
Qed.

Lemma NoDup_snoc {A} (l : list A) (x : A) :
  NoDup l -> ~ In x l -> NoDup (l ++ [x]).
Proof.
  induction l as [|a l IH]; cbn; intros Hnd Hn.
  - constructor; [tauto | constructor].
  - inversion Hnd as [|? ? Ha Hl]; subst.
    constructor; [|apply IH; tauto].
    rewrite in_app_iff. cbn. intros [Hi|[->|[]]]; tauto.
Qed.

Lemma NoDup_unsnoc {A} (l : list A) (x : A) :
  NoDup (l ++ [x]) -> NoDup l /\ ~ In x l.
Proof.
  induction l as [|a l IH]; cbn; intros Hnd.
  - split; [constructor | tauto].
  - inversion Hnd as [|? ? Ha Hl]; subst.
    destruct (IH Hl) as [Hl' Hx]. split.
    + constructor; [|exact Hl']. intros Hi. apply Ha. apply in_app_iff. now left.
    + intros [->|Hi]; [|tauto]. apply Ha. apply in_app_iff. right. now left.
Qed.

(** ** The pool *)

Section PoolFacts.
Context {Heap : Type} `{Constructor Heap}.

Lemma init_loop_fills (n : nat) (p : Pool.t) (h : Heap) :
  fst (Pool.init_loop n p h) =
  Pool.mk (Pool.allObjects p ++ seq (next_ref h) n) (Pool.activeObjects p)
    (Pool.inactiveObjects p ++ seq (next_ref h) n) (Pool.maxSize p)
    (Pool.options p).
Proof.
  revert p h. induction n as [|n IH]; intros p h.
  - cbn. rewrite !app_nil_r. now destruct p.
  - cbn [Pool.init_loop Pool.createObject]. rewrite IH. cbn.
    rewrite next_ref_construct, <- !app_assoc. reflexivity.
Qed.

Lemma new_fills (N : nat) (o : ref) (h : Heap) :
  fst (Pool.new N o h) = Pool.mk (seq (next_ref h) N) [] (seq (next_ref h) N) N o.
Proof. unfold Pool.new, Pool.init. now rewrite init_loop_fills. Qed.

Lemma new_wf (N : nat) (o : ref) (h : Heap) : pool_wf (fst (Pool.new N o h)).
Proof.
  rewrite new_fills. unfold pool_wf, Pool.partitioned. cbn.
  rewrite length_seq. repeat split; auto using seq_NoDup, NoDup_nil; tauto.
Qed.

(** [acquire()] on a full pool: it pops, or it answers [null] and
    changes nothing. *)
Lemma acquire_full (p : Pool.t) (h : Heap) :
  length (Pool.allObjects p) = Pool.maxSize p ->
  (exists object rest,
      Pool.inactiveObjects p = rest ++ [object] /\
      Pool.acquire p h =
        (Some object,
         Pool.mk (Pool.allObjects p) (Pool.activeObjects p ++ [object]) rest
           (Pool.maxSize p) (Pool.options p), h)) \/
  (Pool.inactiveObjects p = [] /\ Pool.acquire p h = (None, p, h)).
Proof.
  intros Hfull. unfold Pool.acquire.
  destruct (pop (Pool.inactiveObjects p)) as [[object rest]|] eqn:E.
  - left. exists object, rest. split; [now apply pop_Some | reflexivity].
  - right. split; [now apply pop_None|].
    rewrite Hfull, Nat.ltb_irrefl. reflexivity.
Qed.

Lemma acquire_wf (p : Pool.t) (h : Heap) :
  pool_wf p -> pool_wf (snd (fst (Pool.acquire p h))).
Proof.
  intros Hwf. pose proof Hwf as (Ha & Hi & (Hdisj & Hall & Hcap) & Hfull).
  destruct (acquire_full p h Hfull) as [(object & rest & Ei & ->)|[_ ->]];
    [|exact Hwf].
  rewrite Ei in Hi, Hdisj, Hall. apply NoDup_unsnoc in Hi as [Hrest Hnew].
  assert (Hfresh : ~ In object (Pool.activeObjects p)).
  { intros Hin. apply (Hdisj object). split; [exact Hin|].
    apply in_app_iff. right. now left. }
  unfold pool_wf, Pool.partitioned. cbn. repeat split; auto using NoDup_snoc.
  - intros x [Hx Hr]. apply in_app_iff in Hx as [Hx|[<-|[]]]; [|tauto].
    apply (Hdisj x). split; [exact Hx | apply in_app_iff; now left].
  - intros Hx. apply Hall in Hx. rewrite !in_app_iff in *. cbn in *. tauto.
  - intros Hx. apply Hall. rewrite !in_app_iff in *. cbn in *. tauto.
Qed.

Lemma release_wf (object : ref) (p : Pool.t) :
  pool_wf p -> pool_wf (Pool.release object p).
Proof.
  intros Hwf. pose proof Hwf as (Ha & Hi & (Hdisj & Hall & Hcap) & Hfull).
  unfold Pool.release.
  destruct (indexOf (Pool.activeObjects p) object) as [i|] eqn:Ei;
    [|exact Hwf].
  pose proof (indexOf_Some_In _ _ _ Ei) as Hact.
  pose proof (splice1_In _ _ _ Ei Ha) as Hsp.
  destruct (indexOf (Pool.inactiveObjects p) object) as [j|] eqn:Ej.
  { exfalso. apply (Hdisj object). eauto using indexOf_Some_In. }
  apply indexOf_None in Ej.
  unfold pool_wf, Pool.partitioned. cbn.
  repeat split; auto using splice1_NoDup, NoDup_snoc.
  - intros x [Hx Hr]. apply Hsp in Hx as [Hx Hne].
    apply in_app_iff in Hr as [Hr|[->|[]]]; [|tauto].
    apply (Hdisj x). tauto.
  - intros Hx. apply Hall in Hx. rewrite in_app_iff, Hsp. cbn.
    destruct (Nat.eq_dec x object) as [->|Hne]; tauto.
  - intros Hx. apply Hall. rewrite in_app_iff, Hsp in Hx. cbn in Hx.
    destruct Hx as [[Hx _]|[Hx|[<-|[]]]]; tauto.
Qed.

Lemma step_wf (c : Pool.call) (s : Pool.t * Heap) :
  pool_wf (fst s) -> pool_wf (fst (Pool.step c s)).
Proof.
  intros Hwf. destruct c as [|object]; cbn.
  - pose proof (acquire_wf (fst s) (snd s) Hwf) as Hacq.
    destruct (Pool.acquire (fst s) (snd s)) as [[r p'] h']. exact Hacq.
  - now apply release_wf.
Qed.

Lemma run_wf (cs : list Pool.call) (s : Pool.t * Heap) :
  pool_wf (fst s) -> pool_wf (fst (Pool.run cs s)).
Proof.
  revert s. induction cs as [|c cs IH]; intros s Hwf; [exact Hwf|].
  cbn. apply IH, step_wf, Hwf.
Qed.

(** Draining a full pool: the objects come back last in, first out,
    and the call after the last one answers [null]. *)
Lemma acquire_seq_drain (r : list ref) (p : Pool.t) (h : Heap) :
  Pool.inactiveObjects p = rev r ->
  length (Pool.allObjects p) = Pool.maxSize p ->
  map fst (Pool.acquire_seq (S (length r)) p h) = map Some r ++ [None].
Proof.
  revert p h. induction r as [|x r IH]; intros p h Ei Hfull.
  - cbn in Ei. cbn. unfold Pool.acquire.
    rewrite Ei, Hfull, Nat.ltb_irrefl. reflexivity.
  - cbn in Ei. cbn [length]. cbn [Pool.acquire_seq].
    unfold Pool.acquire at 1. rewrite Ei, pop_app.
    cbn [map fst app]. f_equal. apply IH; reflexivity || exact Hfull.
Qed.

Lemma acquire_seq_sized (n k : nat) (p : Pool.t) (h : Heap) :
  length (Pool.allObjects p) = Pool.maxSize p ->
  sized n p ->
  Forall (sized n) (map snd (Pool.acquire_seq k p h)).
Proof.
  revert p h. induction k as [|k IH]; intros p h Hfull Hn; [constructor|].
  cbn [Pool.acquire_seq].
  destruct (acquire_full p h Hfull) as [(object & rest & Ei & ->)|[_ ->]].
  - destruct Hn as [Hlen Hparts]. rewrite Ei in Hparts.
    rewrite length_app in Hparts. cbn in Hparts.
    cbn [map snd]. constructor; [|apply IH; [exact Hfull|]];
      (split; [exact Hlen | cbn; rewrite length_app; cbn; lia]).
  - cbn [map snd]. constructor; [exact Hn | now apply IH].
Qed.

End PoolFacts.

(** C1.  A pool built with capacity [N] holds [N] objects, all inactive.
    Of [N+1] calls of [acquire()] with no [release()] between them, the
    first [N] each return one of the pooled objects (the last one pooled
    first) and the call after them returns [null]; after construction and
    after every one of these calls the pool's [length] is [N], and so is
    the number of active and inactive objects together. *)
Theorem pool_exhaustion {Heap : Type} `{Constructor Heap}
    (N : nat) (o : ref) (h : Heap) :
  let p0 := fst (Pool.new N o h) in
  let h0 := snd (Pool.new N o h) in
  Pool.allObjects p0 = seq (next_ref h) N /\
  sized N p0 /\
  map fst (Pool.acquire_seq (S N) p0 h0)
    = map Some (rev (Pool.allObjects p0)) ++ [None] /\
  Forall (sized N) (map snd (Pool.acquire_seq (S N) p0 h0)).
Proof.
  intros p0 h0. subst p0. rewrite new_fills. cbn [Pool.allObjects].
  assert (Hsized : sized N
    (Pool.mk (seq (next_ref h) N) [] (seq (next_ref h) N) N o)).
  { unfold sized, Pool.length. cbn. now rewrite length_seq. }
  repeat split; try apply Hsized.
  - pose proof (acquire_seq_drain (rev (seq (next_ref h) N))
      (Pool.mk (seq (next_ref h) N) [] (seq (next_ref h) N) N o) h0) as Hdrain.
    rewrite length_rev, length_seq in Hdrain.
    apply Hdrain; cbn; [now rewrite rev_involutive | apply length_seq].
  - apply acquire_seq_sized; [apply length_seq | exact Hsized].
Qed.

(** C2.  Whatever calls of [acquire()] and [release(object)] a client
    makes on a pool after constructing it, with any objects as
    arguments, afterwards no object is both active and inactive, the
    pooled objects are exactly the active and the inactive ones, and
    there are no more of them than the capacity. *)
Theorem pool_partition_invariant {Heap : Type} `{Constructor Heap}
    (N : nat) (o : ref) (h : Heap) (cs : list Pool.call) :
  Pool.partitioned (fst (Pool.run cs (Pool.new N o h))).
Proof. apply (run_wf cs (Pool.new N o h)), new_wf. Qed.

(** C7.  In a pool reached from construction by any calls, when
    [acquire()] returns an object, releasing that object at once gives
    back the pool as it was before the [acquire()]: the object is in the
    inactive array again and both arrays are what they were, order
    included. *)
Theorem acquire_release_roundtrip {Heap : Type} `{Constructor Heap}
    (N : nat) (o : ref) (h : Heap) (cs : list Pool.call)
    (object : ref) (p' : Pool.t) (h' : Heap) :
  let p := fst (Pool.run cs (Pool.new N o h)) in
  let hp := snd (Pool.run cs (Pool.new N o h)) in
  Pool.acquire p hp = (Some object, p', h') ->
  In object (Pool.inactiveObjects (Pool.release object p')) /\
  Pool.activeObjects (Pool.release object p') = Pool.activeObjects p /\
  Pool.inactiveObjects (Pool.release object p') = Pool.inactiveObjects p /\
  Pool.release object p' = p.
Proof.
  intros p hp Hacq.
  assert (Hwf : pool_wf p) by apply (run_wf cs (Pool.new N o h)), new_wf.
  destruct Hwf as (Ha & Hi & (Hdisj & Hall & Hcap) & Hfull).
  destruct (acquire_full p hp Hfull) as [(x & rest & Ei & E)|[_ E]];
    rewrite E in Hacq; [|discriminate].
  injection Hacq as <- <- <-.
  rewrite Ei in Hi, Hdisj. apply NoDup_unsnoc in Hi as [Hrest Hnew].
  assert (Hfresh : ~ In x (Pool.activeObjects p)).
  { intros Hin. apply (Hdisj x). split; [exact Hin|].
    apply in_app_iff. right. now left. }
  assert (E' : Pool.release x
      (Pool.mk (Pool.allObjects p) (Pool.activeObjects p ++ [x]) rest
         (Pool.maxSize p) (Pool.options p)) = p).
  { unfold Pool.release. cbn.
    rewrite (indexOf_last _ _ Hfresh), splice1_last.
    apply indexOf_None in Hnew. rewrite Hnew, <- Ei. now destruct p. }
  rewrite E'. repeat split; try reflexivity.
  rewrite Ei. apply in_app_iff. right. now left.
Qed.

(** The round trip on a pool of three objects, one of them acquired
    before. *)
Lemma acquire_release_roundtrip_witness :
  let p := Pool.mk [5; 6; 7] [7] [5; 6] 3 0 in
  let p' := Pool.mk [5; 6; 7] [7; 6] [5] 3 0 in
  In 6 (Pool.inactiveObjects (Pool.release 6 p')) /\
  Pool.activeObjects (Pool.release 6 p') = Pool.activeObjects p /\
  Pool.inactiveObjects (Pool.release 6 p') = Pool.inactiveObjects p /\
  Pool.release 6 p' = p.
Proof.
  exact (acquire_release_roundtrip (Heap := nat) 3 0 5 [Pool.Acquire] 6
           (Pool.mk [5; 6; 7] [7; 6] [5] 3 0) 8 eq_refl).
Defined.

(** ** Vector arguments *)

(** A vector argument: [x[0]] and [x.length] are [undefined], so
    [processArgs] answers [[0, 0]] whatever the vector holds. *)
Lemma processArgs_vector (r : ref) (w : world) :
  Vector.processArgs [VectorRef r] w = Return (0%float, 0%float) w.
Proof. reflexivity. Qed.

(** The argument [dot] passes on: an array that holds a vector is not an
    array of numbers, and no case of [processArgs] takes it. *)
Lemma processArgs_rest_array (r : ref) (w : world) :
  Vector.processArgs [Array [VectorRef r]] w =
  if DEBUG w then Throw InvalidArgumentError w
  else Return (0%float, 0%float) w.
Proof.
  unfold Vector.processArgs, bind, gets. cbn. now destruct (DEBUG w).
Qed.

(** C3.  With [v = (1, 2)] and [w = (3, 4)], [v.add(w)] and
    [v.subtract(w)] both leave [v] at [(1, 2)], whatever [__DEBUG__] is:
    [processArgs] reads [w[0]] and [w.length] of the vector, which are
    [undefined], and answers [[0, 0]].  A scalar is broadcast:
    [v.add(5)] gives [(6, 7)]. *)
Theorem vector_argument_counts_as_zero (debug : bool) :
  result (add_case (initial debug)) = Some (mkVector 1 2) /\
  result (subtract_case (initial debug)) = Some (mkVector 1 2) /\
  result (add_scalar_case (initial debug)) = Some (mkVector 6 7).
Proof. destruct debug; repeat split; vm_compute; reflexivity. Qed.

(** C4.  One [update(0.5)] of a particle at [(10, 20)] with velocity
    [(1, 2)], mass [2] and gravity [(0, 1)] commits [prevPosition] and
    [position] both at [(10, 20)], leaves the velocity at [(1, 2)] and
    the acceleration at zero: the velocity and the force, being vectors,
    are added as [[0, 0]]. *)
Theorem euler_step_adds_nothing (debug : bool) :
  result (euler_case (initial debug)) =
  Some (mkView (mkVector 10 20) (mkVector 10 20) (mkVector 1 2) (mkVector 0 0)
          true 4.5 []).
Proof. destruct debug; vm_compute; reflexivity. Qed.

(** C5.  Two particles of mass [1] and radius [1] at [(0, 0)] and
    [(1, 0)], overlapping, with velocities [(-1, 0)] and [(1, 0)], so
    that the relative velocity along the normal is [-2]; and the same
    two with the velocities exchanged.  With [__DEBUG__] off,
    [checkCollision] leaves both velocities as they were; with it on,
    [dot] throws [InvalidArgumentError]. *)
Theorem collision_exchanges_nothing :
  result (collision_case (-1) 1 (initial false)) =
    Some (mkView (mkVector 0 0) (mkVector 0 0) (mkVector (-1) 0) (mkVector (-1) 0)
            true 5 [],
          mkView (mkVector 1 0) (mkVector 1 0) (mkVector 1 0) (mkVector (-1) 0)
            true 5 []) /\
  result (collision_case 1 (-1) (initial false)) =
    Some (mkView (mkVector 0 0) (mkVector 0 0) (mkVector 1 0) (mkVector 1 0)
            true 5 [],
          mkView (mkVector 1 0) (mkVector 1 0) (mkVector (-1) 0) (mkVector 1 0)
            true 5 []) /\
  result (collision_case (-1) 1 (initial true)) = None /\
  result (collision_case 1 (-1) (initial true)) = None.
Proof. repeat split; vm_compute; reflexivity. Qed.

(** ** Lifespan *)

(** C6, as stated, fails: after two updates with [dt = 0.5] a particle
    that started with [lifespan = 1.0] has [lifespan = 0], which is not
    below zero; it is still active and its callback has not been
    called. *)
Lemma alive_after_two_updates :
  result (life_case 2 (initial true)) =
  Some (mkView (mkVector 10 20) (mkVector 10 20) (mkVector 1 2) (mkVector 0 0)
          true 0 []).
Proof. vm_compute. reflexivity. Qed.

(** ** Reasoning about computations *)

Lemma returns_ret {A} (a : A) (w : world) (Q : A -> world -> Prop) :
  Q a w -> returns (ret a) w Q.
Proof. exact (fun q => q). Qed.

Lemma returns_gets {A} (f : world -> A) (w : world) (Q : A -> world -> Prop) :
  Q (f w) w -> returns (gets f) w Q.
Proof. exact (fun q => q). Qed.

Lemma returns_modify (f : world -> world) (w : world) (Q : unit -> world -> Prop) :
  Q tt (f w) -> returns (modify f) w Q.
Proof. exact (fun q => q). Qed.

Lemma returns_bind {A B} (c : M A) (k : A -> M B) (w : world)
    (Q : B -> world -> Prop) :
  returns c w (fun a w' => returns (k a) w' Q) -> returns (bind c k) w Q.
Proof. unfold returns, bind. destruct (c w); auto. Qed.

Lemma returns_weaken {A} (c : M A) (w : world) (Q Q' : A -> world -> Prop) :
  returns c w Q -> (forall a w', Q a w' -> Q' a w') -> returns c w Q'.
Proof. unfold returns. destruct (c w); auto. Qed.

(** One step through a sequence: the first computation is handled by
    the lemma [L], whose conclusion is introduced with the pattern. *)
Ltac through L :=
  apply returns_bind; eapply returns_weaken; [eapply L; eauto | cbv beta].

(** ** Finite components *)

Lemma zero_finite : Vector.isNumber 0 = true.
Proof. reflexivity. Qed.

Lemma guard_finite (v : float) : Vector.isNumber (Vector.guard v) = true.
Proof.
  unfold Vector.guard. destruct (Vector.isNumber v) eqn:E; cbn.
  - destruct (is_nan v); cbn; [reflexivity | exact E].
  - reflexivity.
Qed.

Lemma or_zero_finite (v : value) :
  Vector.isNumberValue v = true \/ v = Undefined ->
  Vector.isNumber (Vector.or_zero v) = true.
Proof.
  intros [E| ->]; [|reflexivity].
  destruct v as [|n|r|elems]; try discriminate. cbn in *.
  destruct ((n =? 0)%float || is_nan n); [reflexivity | exact E].
Qed.

Lemma index_array (elems : list value) (i : nat) :
  forallb Vector.isNumberValue elems = true ->
  Vector.isNumberValue (nth i elems Undefined) = true \/
  nth i elems Undefined = Undefined.
Proof.
  revert i. induction elems as [|e elems IH]; intros i E.
  - right. now destruct i.
  - cbn in E. apply andb_prop in E as [Ee Eelems].
    destruct i as [|i]; cbn; [now left | now apply IH].
Qed.

Lemma index_finite (x : value) (i : nat) :
  Vector.isVector x || Vector.isArray x = true ->
  Vector.isNumber (Vector.or_zero (Vector.index x i)) = true.
Proof.
  intros E. apply or_zero_finite.
  destruct x as [|n|r|elems]; try discriminate; cbn; [now right|].
  now apply index_array.
Qed.

(** [processArgs] on arguments it has a case for: it returns, changes
    nothing, and both numbers it returns are finite. *)
Lemma processArgs_accepted (args : list value) (w : world) :
  accepted args = true ->
  exists x y,
    Vector.processArgs args w = Return (x, y) w /\
    Vector.isNumber x = true /\ Vector.isNumber y = true.
Proof.
  unfold accepted, Vector.processArgs. intros E.
  destruct (length args =? 0); [now exists 0%float, 0%float|].
  destruct (Vector.isVector (Vector.param args 0) || Vector.isArray (Vector.param args 0))
    eqn:Eobj.
  { eexists _, _. split; [reflexivity|]. split.
    - now apply index_finite.
    - destruct (Vector.length_gt_1 (Vector.param args 0)).
      + now apply index_finite.
      + apply or_zero_finite. left. cbn. now apply index_finite. }
  destruct ((length args =? 2) && Vector.isNumberValue (Vector.param args 0)
            && Vector.isNumberValue (Vector.param args 1)) eqn:E2.
  { apply andb_prop in E2 as [E2 Ey]. apply andb_prop in E2 as [_ Ex].
    eexists _, _. split; [reflexivity|].
    destruct (Vector.param args 0), (Vector.param args 1); try discriminate.
    now split. }
  cbn [orb] in E. rewrite Eobj in E. cbn [orb] in E.
  rewrite E. apply andb_prop in E as [_ Ex].
  eexists _, _. split; [reflexivity|].
  destruct (Vector.param args 0); try discriminate. now split.
Qed.

(** ** The vector operations *)

Lemma evolves_refl (w : world) : finite w -> evolves w w.
Proof. intros F. repeat split; auto; apply F. Qed.

Lemma evolves_trans (w1 w2 w3 : world) :
  evolves w1 w2 -> evolves w2 w3 -> evolves w1 w3.
Proof.
  intros (_ & F12 & C12) (F3 & F23 & C23).
  repeat split; try apply F3; [congruence | lia].
Qed.

(** Finiteness of a store after writes of guarded or finite numbers. *)
Ltac finite_store F :=
  let r := fresh "r" in
  intros r; cbn; unfold upd;
  repeat match goal with
         | |- context [Nat.eqb ?a ?b] => destruct (Nat.eqb a b); cbn
         end;
  split; auto using guard_finite, zero_finite; apply F.

Ltac evolved F :=
  unfold evolves; split; [finite_store F | split; [reflexivity | cbn; lia]].

(** The four arithmetic methods.  [f] is the operation on a component;
    the method is described by what it leaves in the receiver. *)
Lemma add_spec (this : ref) (args : list value) (w : world) :
  finite w -> accepted args = true ->
  returns (Vector.add this args) w (fun r w' => r = this /\ evolves w w').
Proof.
  intros F Hacc.
  destruct (processArgs_accepted args w Hacc) as (x & y & E & _ & _).
  unfold returns, Vector.add, bind. rewrite E. cbn.
  split; [reflexivity | evolved F].
Qed.

Lemma subtract_spec (this : ref) (args : list value) (w : world) :
  finite w -> accepted args = true ->
  returns (Vector.subtract this args) w (fun r w' => r = this /\ evolves w w').
Proof.
  intros F Hacc.
  destruct (processArgs_accepted args w Hacc) as (x & y & E & _ & _).
  unfold returns, Vector.subtract, bind. rewrite E. cbn.
  split; [reflexivity | evolved F].
Qed.

Lemma multiply_spec (this : ref) (args : list value) (w : world) :
  finite w -> accepted args = true ->
  returns (Vector.multiply this args) w (fun r w' => r = this /\ evolves w w').
Proof.
  intros F Hacc.
  destruct (processArgs_accepted args w Hacc) as (x & y & E & _ & _).
  unfold returns, Vector.multiply, bind. rewrite E. cbn.
  split; [reflexivity | evolved F].
Qed.

Lemma divide_spec (this : ref) (args : list value) (w : world) :
  finite w -> accepted args = true ->
  returns (Vector.divide this args) w (fun r w' => r = this /\ evolves w w').
Proof.
  intros F Hacc.
  destruct (processArgs_accepted args w Hacc) as (x & y & E & _ & _).
  unfold returns, Vector.divide, bind. rewrite E.
  destruct (x =? 0)%float, (y =? 0)%float; cbn;
    (split; [reflexivity | evolved F]).
Qed.

(** [new Vector(...)]: the new vector is the next reference. *)
Lemma new_spec (args : list value) (w : world) :
  finite w -> accepted args = true ->
  returns (Vector.new args) w
    (fun r w' => r = vectorCount w /\ vectorCount w' = S (vectorCount w) /\
                 evolves w w').
Proof.
  intros F Hacc.
  destruct (processArgs_accepted args
              (with_vectors (upd (vectorCount w) (mkVector 0 0) (vectors w))
                 (S (vectorCount w)) w) Hacc) as (x & y & E & _ & _).
  unfold returns, Vector.new, bind. cbn. rewrite E. cbn.
  split; [reflexivity | split; [reflexivity | evolved F]].
Qed.

Lemma numbers_accepted (a b : float) :
  Vector.isNumber a = true -> Vector.isNumber b = true ->
  accepted [Number a; Number b] = true.
Proof. intros Ea Eb. unfold accepted. cbn. now rewrite Ea, Eb. Qed.

Lemma number_accepted (a : float) :
  Vector.isNumber a = true -> accepted [Number a] = true.
Proof. intros Ea. unfold accepted. cbn. now rewrite Ea. Qed.

Lemma vector_accepted (r : ref) : accepted [VectorRef r] = true.
Proof. reflexivity. Qed.

Lemma clone_spec (this : ref) (w : world) :
  finite w ->
  returns (Vector.clone this) w
    (fun r w' => r = vectorCount w /\ vectorCount w' = S (vectorCount w) /\
                 evolves w w').
Proof.
  intros F. unfold Vector.clone.
  apply returns_bind, returns_gets, returns_bind, returns_gets.
  apply new_spec; [exact F|]. apply numbers_accepted; apply F.
Qed.

Lemma create_spec (args : list value) (w : world) :
  finite w -> accepted args = true ->
  returns (Vector.create args) w
    (fun r w' => r = vectorCount w /\ vectorCount w' = S (vectorCount w) /\
                 evolves w w').
Proof.
  intros F Hacc.
  destruct (processArgs_accepted args w Hacc) as (x & y & E & Fx & Fy).
  unfold Vector.create. apply returns_bind. unfold returns at 1. rewrite E.
  apply new_spec; [exact F|]. now apply numbers_accepted.
Qed.

Lemma static_divide_spec (v1 : value) (args : list value) (w : world) :
  finite w -> accepted [v1] = true -> accepted args = true ->
  returns (Vector.static_divide v1 args) w (fun _ w' => evolves w w').
Proof.
  intros F H1 Hacc. unfold Vector.static_divide.
  through create_spec. intros r w1 (_ & _ & Ev1).
  eapply returns_weaken; [apply divide_spec; [apply Ev1 | exact Hacc]|].
  cbv beta. intros _ w2 [_ Ev2]. eapply evolves_trans; eauto.
Qed.

(** ** Division *)

Lemma divide_zero_components (this : ref) (args : list value) (w : world)
    (x y : float) :
  Vector.processArgs args w = Return (x, y) w ->
  returns (Vector.divide this args) w (fun r w' =>
    r = this /\
    ((x =? 0)%float = true ->
       values_0 (vectors w' this) = values_0 (vectors w this)) /\
    ((y =? 0)%float = true ->
       values_1 (vectors w' this) = values_1 (vectors w this))).
Proof.
  intros E. unfold returns, Vector.divide, bind. rewrite E.
  destruct (x =? 0)%float, (y =? 0)%float; cbn; unfold upd;
    rewrite ?Nat.eqb_refl; cbn;
    repeat split; intros; reflexivity || discriminate.
Qed.

(** What [processArgs] makes of a divisor: a component that is zero in
    the divisor is zero in its answer. *)
Lemma divisor_processed (args : list value) (w : world) (dx dy : float) :
  divisor w args = Some (dx, dy) ->
  exists x y,
    Vector.processArgs args w = Return (x, y) w /\
    ((dx =? 0)%float = true -> (x =? 0)%float = true) /\
    ((dy =? 0)%float = true -> (y =? 0)%float = true).
Proof.
  unfold divisor. intros D.
  repeat match type of D with
         | context [match ?t with _ => _ end] => destruct t eqn:?; try discriminate
         end;
    injection D as <- <-; subst.
  - (* a scalar *)
    exists n, n. split; [|auto].
    unfold Vector.processArgs. cbn.
    match goal with E : Vector.isNumber _ = true |- _ => rewrite E end.
    reflexivity.
  - (* two numbers *)
    match goal with E : _ && _ = true |- _ => apply andb_prop in E as [Ea Eb] end.
    exists n, n0. split; [|auto].
    unfold Vector.processArgs. cbn. rewrite Ea, Eb. reflexivity.
  - (* a vector *)
    exists 0%float, 0%float. repeat split; reflexivity.
  - (* an array of two numbers *)
    match goal with E : _ && _ = true |- _ => apply andb_prop in E as [Ea Eb] end.
    exists (Vector.or_zero (Number n)), (Vector.or_zero (Number n0)). split.
    + unfold Vector.processArgs. cbn. rewrite Ea, Eb. reflexivity.
    + cbn. split; intros ->; reflexivity.
Qed.

(** C8.  [divide] with a divisor the specification allows (a finite
    scalar, a pair of finite numbers, another vector) returns without an
    error, and a component of the receiver whose divisor component is
    zero is left as it was; when both divisor components are zero, as
    for [divide([0, 0])], [divide(0)] and a zero vector, the receiver is
    unchanged. *)
Theorem divide_by_zero_component (this : ref) (args : list value) (w : world)
    (dx dy : float) :
  divisor w args = Some (dx, dy) ->
  returns (Vector.divide this args) w (fun r w' =>
    r = this /\
    ((dx =? 0)%float = true ->
       values_0 (vectors w' this) = values_0 (vectors w this)) /\
    ((dy =? 0)%float = true ->
       values_1 (vectors w' this) = values_1 (vectors w this)) /\
    ((dx =? 0)%float = true -> (dy =? 0)%float = true ->
       vectors w' this = vectors w this)).
Proof.
  intros D. destruct (divisor_processed args w dx dy D) as (x & y & E & Zx & Zy).
  eapply returns_weaken; [apply (divide_zero_components this args w x y E)|].
  cbv beta. intros r w' (-> & Kx & Ky). repeat split; auto.
  intros Hx Hy. specialize (Kx (Zx Hx)). specialize (Ky (Zy Hy)).
  destruct (vectors w' this), (vectors w this). cbn in *. congruence.
Qed.

(** [new Vector(3, 4).divide([0, 0])]. *)
Lemma divide_by_zero_component_witness :
  let w := final (Vector.new [Number 3; Number 4] (initial true)) in
  divisor w [Array [Number 0; Number 0]] = Some (0%float, 0%float) /\
  returns (Vector.divide 1 [Array [Number 0; Number 0]]) w (fun r w' =>
    r = 1 /\
    ((0 =? 0)%float = true ->
       values_0 (vectors w' 1) = values_0 (vectors w 1)) /\
    ((0 =? 0)%float = true ->
       values_1 (vectors w' 1) = values_1 (vectors w 1)) /\
    ((0 =? 0)%float = true -> (0 =? 0)%float = true ->
       vectors w' 1 = vectors w 1)).
Proof.
  intros w. split; [reflexivity|].
  exact (divide_by_zero_component 1 [Array [Number 0; Number 0]] w 0 0 eq_refl).
Defined.

(** ** Density *)

(** After [setSmoothingRadius(h)] the kernel is [poly6 h]. *)
Lemma kernel_after_radius (h r2 : float) (w : world) :
  returns (Particle.setSmoothingRadius h;; Particle.poly6KernelSq r2) w
    (fun k _ => k = poly6 h r2).
Proof.
  unfold returns, Particle.setSmoothingRadius, Particle.poly6KernelSq, bind,
    modify, gets, poly6. cbn.
  destruct (h * h <? r2)%float; reflexivity.
Qed.

(** C9.  For an array holding the single particle [p],
    [calculateDensities([p], h)] returns and leaves in [p]'s options the
    density [mass * W(0)], where [W] is the Poly6 kernel for [h] (the
    kernel then in force); nothing else is added to it. *)
Theorem single_particle_density (p : ref) (h : float) (w : world) :
  returns (Particle.calculateDensities [p] h) w (fun _ w' =>
    density (optionsStore w' (options (particles w' p)))
      = (mass (optionsStore w (options (particles w p))) * poly6 h 0)%float /\
    forall r2, returns (Particle.poly6KernelSq r2) w' (fun k _ => k = poly6 h r2)).
Proof.
  unfold returns, Particle.calculateDensities, Particle.setSmoothingRadius,
    Particle.poly6KernelSq, for_of, bind, modify, gets, poly6.
  cbn. destruct (h * h <? 0)%float eqn:E0; cbn; rewrite Nat.eqb_refl; cbn;
    unfold upd; rewrite Nat.eqb_refl; cbn; (split; [reflexivity|]);
    intros r2; destruct (h * h <? r2)%float; reflexivity.
Qed.

(** ** The Euler step *)

Lemma frame_fields (w w' : world) :
  frame w' = frame w ->
  DEBUG w' = DEBUG w /\ optionsStore w' = optionsStore w /\
  particles w' = particles w /\ particleCount w' = particleCount w /\
  emitterPosition w' = emitterPosition w /\ pool w' = pool w /\
  callbackLog w' = callbackLog w.
Proof. unfold frame. intros [= -> -> -> -> -> -> _ _ _ ->]. auto 10. Qed.

Lemma forceable_frame (w w' : world) (p : ref) :
  frame w' = frame w -> forceable w p -> forceable w' p.
Proof.
  intros Fr. apply frame_fields in Fr as (_ & Eo & Ep & _).
  unfold forceable. now rewrite Eo, Ep.
Qed.

(** One vector operation further: [Ev] says how the current state came
    from the first; the operation is handled by [L]. *)
Ltac onward Ev L :=
  let r := fresh "r" in
  let w' := fresh "w" in
  let P := fresh "P" in
  let Ev' := fresh "Ev" in
  apply returns_bind; eapply returns_weaken;
  [ eapply L; try apply Ev; auto using vector_accepted, number_accepted
  | cbv beta; intros r w' P;
    assert (Ev' : evolves _ w')
      by (eapply evolves_trans; [exact Ev | apply P]);
    clear Ev ].

Lemma applyForce_spec (p : ref) (w : world) :
  finite w -> forceable w p ->
  returns
    (Particle.applyForce p (gravity (optionsStore w (options (particles w p)))))
    w (fun _ w' => evolves w w').
Proof.
  intros F Hf. unfold Particle.applyForce, options_of.
  apply returns_bind, returns_gets.
  destruct Hf as [-> | [Hm Hg]]; [now apply returns_ret, evolves_refl|].
  destruct (isStatic _); [now apply returns_ret, evolves_refl|].
  unfold particle. apply returns_bind, returns_gets.
  pose proof (evolves_refl w F) as Ev.
  onward Ev static_divide_spec. onward Ev0 add_spec.
  apply returns_ret. exact Ev.
Qed.

Lemma eulerUpdate_spec (p : ref) (dt : float) (w : world) :
  finite w -> forceable w p -> Vector.isNumber (dt * dt) = true ->
  returns (Utility.eulerUpdate Particle.applyForce p dt) w
    (fun _ w' => evolves w w').
Proof.
  intros F Hf Hdt. unfold Utility.eulerUpdate, particle, options_of.
  apply returns_bind, returns_gets.
  pose proof (evolves_refl w F) as Ev.
  onward Ev clone_spec. onward Ev0 clone_spec. onward Ev add_spec.
  apply returns_bind, returns_gets.
  assert (Fr : frame w2 = frame w) by apply Ev0.
  pose proof (forceable_frame _ _ p Fr Hf) as Hf2.
  apply frame_fields in Fr as (_ & Eo & Ep & _). rewrite <- Ep.
  onward Ev0 applyForce_spec.
  onward Ev multiply_spec. onward Ev0 add_spec. onward Ev multiply_spec.
  apply returns_ret. exact Ev0.
Qed.

Lemma upd_same {A} (r : ref) (a : A) (f : ref -> A) : upd r a f r = a.
Proof. unfold upd. now rewrite Nat.eqb_refl. Qed.

#[local] Arguments upd : simpl never.

Lemma update_spec (p : ref) (dt : float) (w : world) :
  finite w -> forceable w p -> Vector.isNumber (dt * dt) = true ->
  returns (Particle.update p dt) w (fun _ w' => finite w' /\ aged p dt w w').
Proof.
  intros F Hf Hdt. unfold Particle.update.
  apply returns_bind. eapply returns_weaken;
    [apply eulerUpdate_spec; assumption | cbv beta].
  intros [newPosition oldPosition] w1 (F1 & Fr & _).
  destruct w1 as [d1 v1 n1 o1 p1 c1 e1 l1 k1 h1 h21 log1].
  unfold frame in Fr. cbn in Fr. injection Fr as -> -> -> -> -> -> -> -> -> ->.
  unfold aged.
  unfold returns, bind, update_particle, update_options, options_of,
    Vector.get_y, Particle.destroy, particle, invoke, pool_release,
    modify, gets, ret.
  cbn [particles optionsStore vectors with_particles with_options].
  repeat (rewrite !upd_same;
          cbn [options set_position set_prevPosition set_active set_callback
               lifespan set_lifespan set_alpha lifeRange isStatic mass gravity]).
  set (o := options (particles w p)).
  set (l := lifespan (optionsStore w o)).
  destruct (l - dt <? 0)%float.
  - unfold bind, update_particle, modify.
    cbn [particles with_particles with_options]. rewrite !upd_same.
    cbn [callback set_active set_position set_prevPosition].
    destruct (callback (particles w p)) as [[]|]; cbn;
      rewrite ?upd_same; cbn; rewrite ?app_nil_r;
      (split; [exact F1 | repeat split; reflexivity]).
  - cbn. rewrite ?upd_same. cbn.
    split; [exact F1 | repeat split; reflexivity].
Qed.

Lemma aged_forceable (p : ref) (dt : float) (w w' : world) :
  aged p dt w w' -> forceable w p -> forceable w' p.
Proof.
  unfold aged, forceable. intros (_ & -> & _ & -> & -> & -> & _) Hf. exact Hf.
Qed.

(** An update that leaves the lifespan at zero or above. *)
Lemma update_alive (p : ref) (dt l : float) (c : option callback_fn) (w : world) :
  finite w -> forceable w p -> Vector.isNumber (dt * dt) = true ->
  lifespan (optionsStore w (options (particles w p))) = l ->
  callback (particles w p) = c ->
  (l - dt <? 0)%float = false ->
  returns (Particle.update p dt) w (fun _ w' =>
    finite w' /\ forceable w' p /\
    lifespan (optionsStore w' (options (particles w' p))) = (l - dt)%float /\
    active (particles w' p) = active (particles w p) /\
    callback (particles w' p) = c /\
    callbackLog w' = callbackLog w).
Proof.
  intros F Hf Hdt Hl Hc Hlt.
  eapply returns_weaken; [now apply update_spec | cbv beta].
  intros _ w' [F' A]. pose proof (aged_forceable _ _ _ _ A Hf) as Hf'.
  unfold aged in A. rewrite Hl, Hlt in A.
  destruct A as (_ & Eo & El & _ & _ & _ & Ea & Ec & Elog).
  rewrite Eo. repeat split; auto; try apply F'. congruence.
Qed.

(** An update that takes the lifespan below zero. *)
Lemma update_dying (p : ref) (dt l : float) (w : world) :
  finite w -> forceable w p -> Vector.isNumber (dt * dt) = true ->
  lifespan (optionsStore w (options (particles w p))) = l ->
  (l - dt <? 0)%float = true ->
  returns (Particle.update p dt) w (fun _ w' =>
    finite w' /\ forceable w' p /\
    lifespan (optionsStore w' (options (particles w' p))) = (l - dt)%float /\
    active (particles w' p) = false /\
    callback (particles w' p) = None /\
    callbackLog w' =
      callbackLog w ++ match callback (particles w p) with
                       | Some _ => [p]
                       | None => []
                       end).
Proof.
  intros F Hf Hdt Hl Hlt.
  eapply returns_weaken; [now apply update_spec | cbv beta].
  intros _ w' [F' A]. pose proof (aged_forceable _ _ _ _ A Hf) as Hf'.
  unfold aged in A. rewrite Hl, Hlt in A.
  destruct A as (_ & Eo & El & _ & _ & _ & Ea & Ec & Elog).
  rewrite Eo. repeat split; auto; apply F'.
Qed.

(** Once the callback is cleared, no update calls anything. *)
Lemma updates_after_death (p : ref) (dt : float) (n : nat) (w : world) :
  finite w -> forceable w p -> Vector.isNumber (dt * dt) = true ->
  callback (particles w p) = None -> active (particles w p) = false ->
  returns (Particle.updates n p dt) w (fun _ w' =>
    active (particles w' p) = false /\ callbackLog w' = callbackLog w).
Proof.
  revert w. induction n as [|n IH]; intros w F Hf Hdt Hc Ha.
  - now apply returns_ret.
  - cbn [Particle.updates]. apply returns_bind.
    destruct (lifespan (optionsStore w (options (particles w p))) - dt <? 0)%float
      eqn:Hlt.
    + eapply returns_weaken;
        [eapply update_dying; eauto | cbv beta].
      intros _ w' (F' & Hf' & _ & Ha' & Hc' & Elog).
      rewrite Hc, app_nil_r in Elog. rewrite <- Elog. now apply IH.
    + eapply returns_weaken;
        [eapply update_alive; eauto | cbv beta].
      intros _ w' (F' & Hf' & _ & Ha' & Hc' & Elog).
      rewrite <- Elog. apply IH; auto. congruence.
Qed.

(** C6, amended.  A particle that is active, has a callback and has
    [lifespan = 1.0] is still active after one and after two updates
    with [dt = 0.5], its callback not called; after the second its
    lifespan is exactly [0], which is not below zero.  The third update
    takes the lifespan to [-0.5], makes the particle inactive and calls
    the callback; however many updates follow, the callback has been
    called exactly once. *)
Theorem dies_on_third_update (p : ref) (cb : callback_fn) (n : nat) (w : world) :
  finite w -> forceable w p ->
  lifespan (optionsStore w (options (particles w p))) = 1%float ->
  active (particles w p) = true ->
  callback (particles w p) = Some cb ->
  returns (Particle.updates n p 0.5) w (fun _ w' =>
    let left := lifespan (optionsStore w' (options (particles w' p))) in
    (n <= 2 ->
       active (particles w' p) = true /\ (left <? 0)%float = false /\
       callbackLog w' = callbackLog w) /\
    (n = 2 -> left = 0%float) /\
    (n = 3 -> left = (-0.5)%float) /\
    (3 <= n ->
       active (particles w' p) = false /\
       callbackLog w' = callbackLog w ++ [p])).
Proof.
  intros F Hf Hl Ha Hc.
  assert (Hdt : Vector.isNumber (0.5 * 0.5) = true) by reflexivity.
  destruct n as [|[|[|m]]]; cbn [Particle.updates].
  - apply returns_ret. cbv zeta. rewrite Hl.
    repeat split; auto; intros; discriminate || lia.
  - apply returns_bind. eapply returns_weaken;
      [eapply (update_alive p 0.5 1); eauto | cbv beta].
    intros _ w1 (F1 & Hf1 & Hl1 & Ha1 & Hc1 & Elog1).
    apply returns_ret. cbv zeta. rewrite Hl1.
    repeat split; auto; try congruence; intros; discriminate || lia.
  - apply returns_bind. eapply returns_weaken;
      [eapply (update_alive p 0.5 1); eauto | cbv beta].
    intros _ w1 (F1 & Hf1 & Hl1 & Ha1 & Hc1 & Elog1).
    apply returns_bind. eapply returns_weaken;
      [eapply (update_alive p 0.5 (1 - 0.5)); eauto | cbv beta].
    intros _ w2 (F2 & Hf2 & Hl2 & Ha2 & Hc2 & Elog2).
    apply returns_ret. cbv zeta. rewrite Hl2.
    repeat split; auto; try congruence; intros; discriminate || lia.
  - apply returns_bind. eapply returns_weaken;
      [eapply (update_alive p 0.5 1); eauto | cbv beta].
    intros _ w1 (F1 & Hf1 & Hl1 & Ha1 & Hc1 & Elog1).
    apply returns_bind. eapply returns_weaken;
      [eapply (update_alive p 0.5 (1 - 0.5)); eauto | cbv beta].
    intros _ w2 (F2 & Hf2 & Hl2 & Ha2 & Hc2 & Elog2).
    apply returns_bind. eapply returns_weaken;
      [eapply (update_dying p 0.5 (1 - 0.5 - 0.5)); eauto | cbv beta].
    intros _ w3 (F3 & Hf3 & Hl3 & Ha3 & Hc3 & Elog3).
    rewrite Hc2 in Elog3.
    destruct m as [|m].
    + apply returns_ret. cbv zeta. rewrite Hl3.
      repeat split; auto; try congruence; intros; discriminate || lia.
    + eapply returns_weaken;
        [apply updates_after_death; auto | cbv beta].
      intros _ w4 [Ha4 Elog4].
      repeat split; auto; try congruence; intros; discriminate || lia.
Qed.

(** The particle of [life_case], as [activate] leaves it. *)
Lemma dies_on_third_update_witness :
  let w :=
    final (activate 0
             (fun range => mkOptions false 2 1 range 1 1 0 Undefined 0 0 0)
             10 20 1 2 (initial true)) in
  returns (Particle.updates 3 0 0.5) w (fun _ w' =>
    let left := lifespan (optionsStore w' (options (particles w' 0))) in
    (3 <= 2 ->
       active (particles w' 0) = true /\ (left <? 0)%float = false /\
       callbackLog w' = callbackLog w) /\
    (3 = 2 -> left = 0%float) /\
    (3 = 3 -> left = (-0.5)%float) /\
    (3 <= 3 ->
       active (particles w' 0) = false /\
       callbackLog w' = callbackLog w ++ [0])).
Proof.
  intros w. apply (dies_on_third_update 0 EmitterRelease 3 w).
  - intros r. unfold w.
    do 6 (try destruct r as [|r]); vm_compute; split; reflexivity.
  - right. split; reflexivity.
  - reflexivity.
  - reflexivity.
  - reflexivity.
Defined.

(** ** Spawning *)

Lemma upd_other {A} (r r' : ref) (a : A) (f : ref -> A) :
  r' <> r -> upd r a f r' = f r'.
Proof. unfold upd. intros Hne. now apply Nat.eqb_neq in Hne as ->. Qed.

(** [init]: the particle gets the position object it is given, a new
    [prevPosition], the velocity and the callback, and is active; no
    other particle changes. *)
Lemma init_spec (p : ref) (cb : callback_fn) (pos vel : ref) (w : world) :
  finite w ->
  returns (Particle.init p cb pos vel) w (fun _ w' =>
    finite w' /\ vectorCount w < vectorCount w' /\
    optionsStore w' = optionsStore w /\
    emitterPosition w' = emitterPosition w /\
    pool w' = pool w /\
    (forall q, q <> p -> particles w' q = particles w q) /\
    particles w' p =
      mkParticle (id (particles w p)) (options (particles w p)) pos
        (vectorCount w) vel (acceleration (particles w p)) (Some cb) true).
Proof.
  intros F. unfold Particle.init, update_particle, particle.
  do 3 (apply returns_bind, returns_modify).
  apply returns_bind. eapply returns_weaken; [apply clone_spec; exact F|].
  cbv beta. intros prev wB (-> & Hn & FB & FrB & _).
  destruct wB as [dB vB nB oB pB cB eB lB kB hB h2B logB].
  unfold frame in FrB. cbn in FrB, Hn.
  injection FrB as -> -> -> -> -> -> -> -> -> ->. subst nB.
  do 2 (apply returns_bind, returns_modify).
  apply returns_bind, returns_gets.
  apply returns_bind. eapply returns_weaken;
    [apply multiply_spec; [exact FB | apply number_accepted, zero_finite]|].
  cbv beta. intros r wD (_ & FD & FrD & Hle).
  destruct wD as [dD vD nD oD pD cD eD lD kD hD h2D logD].
  unfold frame in FrD. cbn in FrD, Hle.
  injection FrD as -> -> -> -> -> -> -> -> -> ->.
  apply returns_ret. cbn.
  split; [exact FD|]. split; [lia|]. do 3 (split; [reflexivity|]). split.
  - intros q Hq. now rewrite !upd_other by exact Hq.
  - rewrite !upd_same. reflexivity.
Qed.

Lemma addParticles_spec (o : ref) (w : world) :
  emitting o w ->
  returns Emitter.addParticles w (fun _ w' =>
    emitting o w' /\
    emitterPosition w' = emitterPosition w /\
    Pool.maxSize (pool w') = Pool.maxSize (pool w) /\
    length (Pool.activeObjects (pool w')) =
      Nat.min (S (length (Pool.activeObjects (pool w)))) (Pool.maxSize (pool w))).
Proof.
  intros (F & Hwf & [Hlen Hsz] & Hopt & Hvx & Hvy & Hpos & Hact).
  pose proof Hwf as (Ha & Hi & (Hdisj & Hall & Hcap) & Hfull).
  pose proof (acquire_wf (pool w) w Hwf) as Hwf'.
  unfold Emitter.addParticles. apply returns_bind.
  unfold returns at 1, Emitter.acquire.
  destruct (acquire_full (pool w) w Hfull) as [(x & rest & Ei & E)|[Ei E]];
    rewrite E in *; cbn in Hwf'.
  - (* a particle is acquired *)
    assert (Hx : In x (Pool.allObjects (pool w))).
    { apply Hall. right. rewrite Ei. apply in_app_iff. right. now left. }
    assert (Hfresh : ~ In x (Pool.activeObjects (pool w))).
    { intros Hin. apply (Hdisj x). split; [exact Hin|].
      rewrite Ei. apply in_app_iff. right. now left. }
    unfold options_of. apply returns_bind, returns_gets.
    cbn [particles optionsStore with_emitter]. rewrite (Hopt x Hx).
    apply returns_bind. eapply returns_weaken;
      [apply new_spec; [exact F | now apply numbers_accepted]|].
    cbv beta. intros vel w2 (-> & Hn2 & F2 & Fr2 & _).
    apply frame_fields in Fr2 as (_ & Eo2 & Ep2 & _ & Ee2 & Epool2 & _).
    cbn in Hn2, Eo2, Ep2, Ee2, Epool2.
    apply returns_bind, returns_gets. rewrite Ee2.
    eapply returns_weaken; [apply init_spec; exact F2|].
    cbv beta. intros _ w3 (F3 & Hn3 & Eo3 & Ee3 & Epool3 & Hother & Hmine).
    rewrite Eo2 in Eo3. rewrite Ee2 in Ee3. rewrite Epool2 in Epool3.
    rewrite Ep2 in Hother, Hmine.
    rewrite Ei, length_app in Hsz. cbn in Hsz.
    unfold emitting. rewrite Epool3, Eo3, Ee3.
    cbn [Pool.allObjects Pool.activeObjects Pool.inactiveObjects Pool.maxSize].
    repeat match goal with |- _ /\ _ => split end;
      try assumption; try lia.
    + unfold sized, Pool.length. cbn. rewrite length_app. cbn.
      unfold Pool.length in Hlen. lia.
    + intros q Hq. destruct (Nat.eq_dec q x) as [->|Hne].
      * rewrite Hmine. cbn. now apply Hopt.
      * rewrite Hother by exact Hne. now apply Hopt.
    + intros q Hq. destruct (Nat.eq_dec q x) as [->|Hne].
      * rewrite Hmine. cbn. split; [reflexivity | lia].
      * rewrite Hother by exact Hne. apply Hact.
        apply in_app_iff in Hq as [Hq|[<-|[]]]; tauto.
    + rewrite length_app. cbn [length]. lia.
  - (* the pool is exhausted *)
    apply returns_ret. rewrite Ei in Hsz. cbn in Hsz.
    unfold emitting.
    cbn [pool with_emitter emitterPosition particles optionsStore vectorCount].
    repeat match goal with |- _ /\ _ => split end;
      try assumption; try lia.
    split; [exact Hlen | rewrite Ei; exact Hsz].
Qed.

Lemma spawn_spec (o : ref) (n : nat) (w : world) :
  emitting o w ->
  returns (Emitter.spawn n) w (fun _ w' =>
    emitting o w' /\
    Pool.maxSize (pool w') = Pool.maxSize (pool w) /\
    length (Pool.activeObjects (pool w')) =
      Nat.min (n + length (Pool.activeObjects (pool w))) (Pool.maxSize (pool w))).
Proof.
  revert w. induction n as [|n IH]; intros w Hw.
  - apply returns_ret. split; [exact Hw | split; [reflexivity|]].
    destruct Hw as (_ & _ & [_ Hsz] & _). lia.
  - cbn [Emitter.spawn]. apply returns_bind.
    eapply returns_weaken; [apply addParticles_spec, Hw | cbv beta].
    intros _ w1 (Hw1 & _ & Hmax1 & Hlen1).
    eapply returns_weaken; [apply IH, Hw1 | cbv beta].
    intros _ w2 (Hw2 & Hmax2 & Hlen2).
    split; [exact Hw2 | split; [congruence|]].
    rewrite Hlen2, Hlen1, Hmax1. lia.
Qed.

(** Filling a pool of particles constructs them in the particle store
    and touches nothing else. *)
Lemma init_loop_world (n : nat) (pl : Pool.t) (w : world) :
  let w' := snd (Pool.init_loop n pl w) in
  vectors w' = vectors w /\ vectorCount w' = vectorCount w /\
  optionsStore w' = optionsStore w /\
  (forall q, q < particleCount w -> particles w' q = particles w q) /\
  (forall q, In q (seq (particleCount w) n) ->
     options (particles w' q) = Pool.options pl).
Proof.
  revert pl w. induction n as [|n IH]; intros pl w; cbn zeta.
  - cbn. repeat split; auto. intros q [].
  - cbn [Pool.init_loop Pool.createObject].
    specialize (IH
      (Pool.mk (Pool.allObjects pl ++ [next_ref w]) (Pool.activeObjects pl)
         (Pool.inactiveObjects pl ++ [next_ref w]) (Pool.maxSize pl)
         (Pool.options pl))
      (construct (Pool.options pl) w)).
    cbn zeta in IH. destruct IH as (Ev & En & Eo & Hold & Hnew).
    cbn in Ev, En, Eo, Hold, Hnew.
    repeat split; auto.
    + intros q Hq. rewrite Hold by lia. apply upd_other. lia.
    + intros q [<-|Hq]; [|now apply Hnew].
      rewrite Hold by lia. rewrite upd_same. reflexivity.
Qed.

Lemma emitter_new_spec (position0 o : ref) (capacity : nat) (w : world) :
  finite w ->
  Vector.isNumber (vx (optionsStore w o)) = true ->
  Vector.isNumber (vy (optionsStore w o)) = true ->
  returns (Emitter.new position0 o capacity) w (fun _ w' =>
    emitting o w' /\
    Pool.activeObjects (pool w') = [] /\
    Pool.maxSize (pool w') = capacity).
Proof.
  intros F Hvx Hvy. unfold Emitter.new.
  apply returns_bind. eapply returns_weaken; [apply clone_spec, F | cbv beta].
  intros pos w1 (-> & Hn1 & F1 & Fr1 & _).
  apply frame_fields in Fr1 as (_ & Eo1 & _).
  apply returns_modify.
  pose proof (new_fills capacity o w1) as Hfst.
  pose proof (new_wf capacity o w1) as Hwf.
  pose proof (init_loop_world capacity (Pool.mk [] [] [] capacity o) w1) as Hsnd.
  cbn zeta in Hsnd. unfold Pool.new, Pool.init in *.
  cbn [Pool.maxSize] in *.
  destruct (Pool.init_loop capacity _ w1) as [pl w2]. cbn [fst snd] in *.
  destruct Hsnd as (Ev & En & Eo & _ & Hnew). subst pl.
  unfold emitting.
  cbn [pool with_emitter emitterPosition particles optionsStore vectorCount
       Pool.allObjects Pool.activeObjects Pool.inactiveObjects Pool.maxSize].
  repeat match goal with |- _ /\ _ => split end;
    try assumption; try reflexivity; try lia.
  - intros r. cbn. rewrite Ev. apply F1.
  - unfold sized, Pool.length. cbn. rewrite length_seq. auto.
  - now rewrite Eo, Eo1.
  - now rewrite Eo, Eo1.
  - intros q [].
Qed.

(** C10, as stated, fails: once a spawned particle has been updated its
    position is a vector of its own.  A write of [42] into the position
    of a particle spawned later shows in the emitter's position and not
    in the position of the first particle. *)
Lemma updated_particle_has_own_position :
  result (rebound_case (initial true)) =
    Some (mkVector 10 20, mkVector 42 20, mkVector 42 20) /\
  result (rebound_case (initial false)) =
    Some (mkVector 10 20, mkVector 42 20, mkVector 42 20).
Proof. split; vm_compute; reflexivity. Qed.

(** * Further properties *)

(** ** More on the pool *)

Lemma release_not_active (object : ref) (p : Pool.t) :
  ~ In object (Pool.activeObjects p) -> Pool.release object p = p.
Proof.
  intros Hn. unfold Pool.release. apply indexOf_None in Hn. now rewrite Hn.
Qed.

Lemma splice1_Permutation (l : list ref) (x : ref) (i : nat) :
  indexOf l x = Some i -> Permutation l (x :: splice1 i l).
Proof.
  revert i. induction l as [|a l IH]; cbn; intros i E; [discriminate|].
  destruct (Nat.eqb_spec a x) as [->|Hne].
  - injection E as <-. reflexivity.
  - destruct (indexOf l x) as [j|]; [|discriminate]. injection E as <-.
    cbn. rewrite (IH j eq_refl) at 1. apply perm_swap.
Qed.

Section PoolMore.
Context {Heap : Type} `{Constructor Heap}.

(** What stays fixed while a pool is used: the heap and the array of all
    objects. *)
Lemma step_fixed (c : Pool.call) (s : Pool.t * Heap) :
  pool_wf (fst s) ->
  snd (Pool.step c s) = snd s /\
  Pool.allObjects (fst (Pool.step c s)) = Pool.allObjects (fst s).
Proof.
  intros (_ & _ & _ & Hfull). destruct c as [|object]; cbn.
  - destruct (acquire_full (fst s) (snd s) Hfull)
      as [(x & rest & _ & ->)|[_ ->]]; now split.
  - split; [reflexivity|]. unfold Pool.release.
    destruct (indexOf (Pool.activeObjects (fst s)) object); [|reflexivity].
    now destruct (indexOf (Pool.inactiveObjects (fst s)) object).
Qed.

Lemma run_fixed (cs : list Pool.call) (s : Pool.t * Heap) :
  pool_wf (fst s) ->
  snd (Pool.run cs s) = snd s /\
  Pool.allObjects (fst (Pool.run cs s)) = Pool.allObjects (fst s).
Proof.
  revert s. induction cs as [|c cs IH]; intros s Hwf; [now split|].
  change (Pool.run (c :: cs) s) with (Pool.run cs (Pool.step c s)).
  destruct (step_fixed c s Hwf) as [Eh Ea].
  destruct (IH (Pool.step c s) (step_wf c s Hwf)) as [Eh' Ea'].
  split; congruence.
Qed.

Lemma step_Permutation (c : Pool.call) (s : Pool.t * Heap) :
  pool_wf (fst s) ->
  Permutation (Pool.activeObjects (fst s) ++ Pool.inactiveObjects (fst s))
    (Pool.allObjects (fst s)) ->
  Permutation
    (Pool.activeObjects (fst (Pool.step c s)) ++
     Pool.inactiveObjects (fst (Pool.step c s)))
    (Pool.allObjects (fst (Pool.step c s))).
Proof.
  intros Hwf HP. pose proof Hwf as (Ha & Hi & (Hdisj & Hall & _) & Hfull).
  destruct c as [|object]; cbn.
  - destruct (acquire_full (fst s) (snd s) Hfull)
      as [(x & rest & Ei & ->)|[_ ->]]; [|exact HP].
    cbn. rewrite Ei in HP. rewrite <- HP, <- app_assoc.
    apply Permutation_app_head, Permutation_app_comm.
  - unfold Pool.release.
    destruct (indexOf (Pool.activeObjects (fst s)) object) as [i|] eqn:Ei;
      [|exact HP].
    destruct (indexOf (Pool.inactiveObjects (fst s)) object) as [j|] eqn:Ej.
    { exfalso. apply (Hdisj object). eauto using indexOf_Some_In. }
    cbn. rewrite <- HP. apply Permutation_sym.
    etransitivity;
      [apply Permutation_app_tail, (splice1_Permutation _ _ _ Ei)|].
    cbn. rewrite app_assoc. apply Permutation_cons_append.
Qed.

Lemma run_Permutation (cs : list Pool.call) (s : Pool.t * Heap) :
  pool_wf (fst s) ->
  Permutation (Pool.activeObjects (fst s) ++ Pool.inactiveObjects (fst s))
    (Pool.allObjects (fst s)) ->
  Permutation
    (Pool.activeObjects (fst (Pool.run cs s)) ++
     Pool.inactiveObjects (fst (Pool.run cs s)))
    (Pool.allObjects (fst (Pool.run cs s))).
Proof.
  revert s. induction cs as [|c cs IH]; intros s Hwf HP; [exact HP|].
  change (Pool.run (c :: cs) s) with (Pool.run cs (Pool.step c s)).
  apply IH; [now apply step_wf | now apply step_Permutation].
Qed.

End PoolMore.

(** X1.  In a pool reached from construction by any calls, releasing an
    object a second time changes nothing more, and releasing an object
    that is not active (inactive already, or not of this pool) changes
    nothing at all. *)
Theorem release_twice {Heap : Type} `{Constructor Heap}
    (N : nat) (o : ref) (h : Heap) (cs : list Pool.call) (object : ref) :
  let p := fst (Pool.run cs (Pool.new N o h)) in
  Pool.release object (Pool.release object p) = Pool.release object p /\
  (~ In object (Pool.activeObjects p) -> Pool.release object p = p).
Proof.
  intros p. split; [|apply release_not_active].
  assert (Hwf : pool_wf p) by apply (run_wf cs (Pool.new N o h)), new_wf.
  destruct Hwf as (Ha & Hi & (Hdisj & _) & _).
  apply release_not_active. unfold Pool.release.
  destruct (indexOf (Pool.activeObjects p) object) as [i|] eqn:Ei.
  - pose proof (splice1_In _ _ _ Ei Ha object) as Hsp.
    destruct (indexOf (Pool.inactiveObjects p) object); cbn; tauto.
  - now apply indexOf_None.
Qed.

(** X2.  In a pool reached from construction by any calls, an active
    object that is released is the object the next [acquire()] returns,
    and that [acquire()] puts it last in the active array and gives the
    inactive array back as it was before the release. *)
Theorem released_object_is_next {Heap : Type} `{Constructor Heap}
    (N : nat) (o : ref) (h : Heap) (cs : list Pool.call) (object : ref) :
  let p := fst (Pool.run cs (Pool.new N o h)) in
  let hp := snd (Pool.run cs (Pool.new N o h)) in
  In object (Pool.activeObjects p) ->
  exists i,
    indexOf (Pool.activeObjects p) object = Some i /\
    Pool.acquire (Pool.release object p) hp =
      (Some object,
       Pool.mk (Pool.allObjects p)
         (splice1 i (Pool.activeObjects p) ++ [object])
         (Pool.inactiveObjects p) (Pool.maxSize p) (Pool.options p),
       hp).
Proof.
  intros p hp Hin.
  assert (Hwf : pool_wf p) by apply (run_wf cs (Pool.new N o h)), new_wf.
  destruct Hwf as (Ha & Hi & (Hdisj & _) & _).
  destruct (indexOf (Pool.activeObjects p) object) as [i|] eqn:Ei.
  2:{ apply indexOf_None in Ei. tauto. }
  exists i. split; [reflexivity|].
  assert (Ej : indexOf (Pool.inactiveObjects p) object = None).
  { apply indexOf_None. intros Hinact. apply (Hdisj object). tauto. }
  unfold Pool.release. rewrite Ei, Ej.
  unfold Pool.acquire. cbn. now rewrite pop_app.
Qed.

(** A pool of three with two objects active; the older one is released. *)
Lemma released_object_is_next_witness :
  In 7 [7; 6] /\
  exists i,
    indexOf [7; 6] 7 = Some i /\
    Pool.acquire (Pool.release 7 (Pool.mk [5; 6; 7] [7; 6] [5] 3 0)) 8 =
      (Some 7, Pool.mk [5; 6; 7] (splice1 i [7; 6] ++ [7]) [5] 3 0, 8).
Proof.
  split; [now left|].
  exact (released_object_is_next (Heap := nat) 3 0 5
           [Pool.Acquire; Pool.Acquire] 7 (or_introl eq_refl)).
Defined.

(** X3.  After its construction a pool never constructs an object
    again: whatever calls are made, the heap is the one the constructor
    left, the array of all objects is the one it filled, and [length]
    is the capacity. *)
Theorem pool_never_constructs {Heap : Type} `{Constructor Heap}
    (N : nat) (o : ref) (h : Heap) (cs : list Pool.call) :
  snd (Pool.run cs (Pool.new N o h)) = snd (Pool.new N o h) /\
  Pool.allObjects (fst (Pool.run cs (Pool.new N o h))) = seq (next_ref h) N /\
  Pool.length (fst (Pool.run cs (Pool.new N o h))) = N.
Proof.
  destruct (run_fixed cs (Pool.new N o h) (new_wf N o h)) as [Eh Ea].
  rewrite new_fills in Ea. cbn [Pool.allObjects] in Ea.
  unfold Pool.length. rewrite Ea, length_seq. auto.
Qed.

(** X4.  In a pool reached from construction by any calls, the active
    array followed by the inactive array is a rearrangement of the array
    of all objects, which has no object twice: every pooled object is in
    exactly one of the two arrays, exactly once. *)
Theorem pool_arrays_rearrange_all {Heap : Type} `{Constructor Heap}
    (N : nat) (o : ref) (h : Heap) (cs : list Pool.call) :
  let p := fst (Pool.run cs (Pool.new N o h)) in
  Permutation (Pool.activeObjects p ++ Pool.inactiveObjects p)
    (Pool.allObjects p) /\
  NoDup (Pool.allObjects p) /\
  length (Pool.activeObjects p) + length (Pool.inactiveObjects p) = N.
Proof.
  intros p.
  assert (HP : Permutation (Pool.activeObjects p ++ Pool.inactiveObjects p)
                 (Pool.allObjects p)).
  { apply (run_Permutation cs (Pool.new N o h)); [apply new_wf|].
    rewrite new_fills. reflexivity. }
  assert (Ea : Pool.allObjects p = seq (next_ref h) N).
  { unfold p. destruct (run_fixed cs (Pool.new N o h) (new_wf N o h)) as [_ ->].
    now rewrite new_fills. }
  split; [exact HP|]. split.
  - rewrite Ea. apply seq_NoDup.
  - rewrite <- length_app, (Permutation_length HP), Ea. apply length_seq.
Qed.

(** ** The class invariant of [Vector] *)

Lemma keeps_ret {A} (a : A) : keeps (ret a).
Proof. intros w F. now split. Qed.

Lemma keeps_gets {A} (f : world -> A) : keeps (gets f).
Proof. intros w F. now split. Qed.

Lemma keeps_throw {A} (e : error) : keeps (@throw A e).
Proof. intros w F. now split. Qed.

Lemma keeps_bind {A B} (c : M A) (k : A -> M B) :
  keeps c -> (forall a, keeps (k a)) -> keeps (bind c k).
Proof.
  intros Hc Hk w F. unfold bind. destruct (Hc w F) as [F1 Fr1].
  destruct (c w) as [a w1|e w1]; cbn in F1, Fr1; [|now split].
  destruct (Hk a w1 F1) as [F2 Fr2]. split; [exact F2 | congruence].
Qed.

Lemma keeps_set_x (this : ref) (v : float) : keeps (Vector.set_x this v).
Proof. intros w F. split; [finite_store F | reflexivity]. Qed.

Lemma keeps_set_y (this : ref) (v : float) : keeps (Vector.set_y this v).
Proof. intros w F. split; [finite_store F | reflexivity]. Qed.

Lemma keeps_fresh (this : ref) :
  keeps (modify (fun w =>
    with_vectors (upd this (mkVector 0 0) (vectors w)) (S this) w)).
Proof. intros w F. split; [finite_store F | reflexivity]. Qed.

Lemma keeps_processArgs (args : list value) : keeps (Vector.processArgs args).
Proof.
  unfold Vector.processArgs.
  repeat match goal with
         | |- keeps (if ?b then _ else _) => destruct b
         end; try apply keeps_ret.
  apply keeps_bind; [apply keeps_gets|].
  intros [|]; [apply keeps_throw | apply keeps_ret].
Qed.

Create HintDb keeps.
#[local] Hint Resolve keeps_ret keeps_gets keeps_throw keeps_set_x keeps_set_y
  keeps_fresh keeps_processArgs : keeps.

(** A computation put together from pieces that keep the invariant. *)
Ltac keeping :=
  repeat first
    [ solve [auto with keeps]
    | apply keeps_bind; [|intros ?]
    | match goal with
      | |- keeps (if ?b then _ else _) => destruct b
      | |- keeps (match ?x with _ => _ end) => destruct x
      end ].

Lemma keeps_new (args : list value) : keeps (Vector.new args).
Proof. unfold Vector.new. keeping. Qed.
#[local] Hint Resolve keeps_new : keeps.

Lemma keeps_create (args : list value) : keeps (Vector.create args).
Proof. unfold Vector.create. keeping. Qed.

Lemma keeps_set (this : ref) (x y : float) : keeps (Vector.set this x y).
Proof. unfold Vector.set. keeping. Qed.

Lemma keeps_clone (this : ref) : keeps (Vector.clone this).
Proof. unfold Vector.clone, Vector.get_x, Vector.get_y. keeping. Qed.
#[local] Hint Resolve keeps_create keeps_set keeps_clone : keeps.

Lemma keeps_copy (this : ref) (arg : value) : keeps (Vector.copy this arg).
Proof. unfold Vector.copy, Vector.get_x, Vector.get_y. keeping. Qed.

Lemma keeps_add (this : ref) (args : list value) : keeps (Vector.add this args).
Proof. unfold Vector.add, Vector.get_x, Vector.get_y. keeping. Qed.

Lemma keeps_subtract (this : ref) (args : list value) :
  keeps (Vector.subtract this args).
Proof. unfold Vector.subtract, Vector.get_x, Vector.get_y. keeping. Qed.

Lemma keeps_multiply (this : ref) (args : list value) :
  keeps (Vector.multiply this args).
Proof. unfold Vector.multiply, Vector.get_x, Vector.get_y. keeping. Qed.

Lemma keeps_divide (this : ref) (args : list value) :
  keeps (Vector.divide this args).
Proof. unfold Vector.divide, Vector.get_x, Vector.get_y. keeping. Qed.

Lemma keeps_magnitude (this : ref) : keeps (Vector.magnitude this).
Proof.
  unfold Vector.magnitude, Vector.magnitudeSq, Vector.get_x, Vector.get_y.
  keeping.
Qed.
#[local] Hint Resolve keeps_copy keeps_add keeps_subtract keeps_multiply
  keeps_divide keeps_magnitude : keeps.

Lemma keeps_magnitudeSq (this : ref) : keeps (Vector.magnitudeSq this).
Proof. unfold Vector.magnitudeSq, Vector.get_x, Vector.get_y. keeping. Qed.

Lemma keeps_dot (this : ref) (args : list value) : keeps (Vector.dot this args).
Proof. unfold Vector.dot, Vector.get_x, Vector.get_y. keeping. Qed.

Lemma keeps_cross (this : ref) (args : list value) :
  keeps (Vector.cross this args).
Proof. unfold Vector.cross, Vector.get_x, Vector.get_y. keeping. Qed.

Lemma keeps_normalize (this : ref) : keeps (Vector.normalize this).
Proof. unfold Vector.normalize. keeping. Qed.
#[local] Hint Resolve keeps_magnitudeSq keeps_dot keeps_cross keeps_normalize
  : keeps.

Lemma keeps_distance (this : ref) (args : list value) :
  keeps (Vector.distance this args).
Proof. unfold Vector.distance, Vector.static_subtract. keeping. Qed.

Lemma keeps_limit (this : ref) (arg : float) : keeps (Vector.limit this arg).
Proof. unfold Vector.limit. keeping. Qed.

Lemma keeps_setMagnitude (this : ref) (arg : float) :
  keeps (Vector.setMagnitude this arg).
Proof. unfold Vector.setMagnitude. keeping. Qed.

Lemma keeps_lerp (this : ref) (args : list value) :
  keeps (Vector.lerp this args).
Proof. unfold Vector.lerp, Vector.get_x, Vector.get_y. cbv zeta. keeping. Qed.

Lemma keeps_reflect (this : ref) (args : list value) :
  keeps (Vector.reflect this args).
Proof. unfold Vector.reflect. cbv zeta. keeping. Qed.

Lemma keeps_equals (this : ref) (args : list value) :
  keeps (Vector.equals this args).
Proof. unfold Vector.equals, Vector.get_x, Vector.get_y. cbv zeta. keeping. Qed.

Lemma keeps_clampToZero (this : ref) : keeps (Vector.clampToZero this).
Proof. unfold Vector.clampToZero, Vector.get_x, Vector.get_y. keeping. Qed.
#[local] Hint Resolve keeps_distance keeps_limit keeps_setMagnitude keeps_lerp
  keeps_reflect keeps_equals keeps_clampToZero : keeps.

Lemma keeps_call (this : ref) (m : Vector.method) : keeps (Vector.call this m).
Proof. destruct m; cbn [Vector.call]; keeping. Qed.

(** X5.  No call of a vector method can leave a component that is NaN or
    infinite, whatever its receiver and its arguments are, and whether
    it returns or throws, and no such call changes anything but
    vectors: from a state in which all components are finite, any
    sequence of the calls [set], [clone], [copy], [add], [subtract],
    [multiply], [divide], [magnitude], [dot], [cross], [distance],
    [normalize], [limit], [setMagnitude], [lerp], [reflect], [equals]
    and [clampToZero] ends in such a state. *)
Theorem vector_components_stay_finite
    (cs : list (ref * Vector.method)) (w : world) :
  finite w ->
  finite (Vector.calls cs w) /\ frame (Vector.calls cs w) = frame w.
Proof.
  revert w. induction cs as [|[this m] cs IH]; intros w F; [now split|].
  cbn [Vector.calls]. destruct (keeps_call this m w F) as [F1 Fr1].
  destruct (IH _ F1) as [F2 Fr2]. split; [exact F2 | congruence].
Qed.

(** A division by zero, an overflowing product, a sum with infinity and
    a normalisation, on [zeroVector]. *)
Lemma vector_components_stay_finite_witness :
  let w := initial true in
  let cs := [(0, Vector.Add [Number 0x1p+1023; Number 1]);
             (0, Vector.Multiply [Number 0x1p+1023]);
             (0, Vector.Divide [Number 0]);
             (0, Vector.Add [Number infinity]);
             (0, Vector.Normalize)] in
  finite w /\
  finite (Vector.calls cs w) /\ frame (Vector.calls cs w) = frame w.
Proof.
  intros w cs.
  assert (F : finite w) by (intros r; split; reflexivity).
  split; [exact F|]. exact (vector_components_stay_finite cs w F).
Defined.

(** ** Equations for the vector operations *)

Lemma upd_upd {A} (r : ref) (a b : A) (f : ref -> A) :
  upd r a (upd r b f) = upd r a f.
Proof.
  apply functional_extensionality. intros r'. unfold upd.
  now destruct (Nat.eqb r' r).
Qed.

Lemma store_store (r : ref) (a b : VectorObj) (w : world) :
  store r a (store r b w) = store r a w.
Proof. unfold store, with_vectors. cbn. now rewrite upd_upd. Qed.

Lemma store_alloc (v v' : VectorObj) (w : world) :
  store (vectorCount w) v (alloc v' w) = alloc v w.
Proof. unfold store, alloc, with_vectors. cbn. now rewrite upd_upd. Qed.

Lemma vectors_alloc_new (v : VectorObj) (w : world) :
  vectors (alloc v w) (vectorCount w) = v.
Proof. cbn. apply upd_same. Qed.

Lemma preserved_alloc (v : VectorObj) (w : world) : preserved w (alloc v w).
Proof. intros r Hr. cbn. apply upd_other. lia. Qed.

Lemma preserved_trans (w1 w2 w3 : world) :
  vectorCount w1 <= vectorCount w2 ->
  preserved w1 w2 -> preserved w2 w3 -> preserved w1 w3.
Proof. intros Hle H12 H23 r Hr. rewrite H23 by lia. now apply H12. Qed.

Lemma guard_of_finite (v : float) : Vector.isNumber v = true -> Vector.guard v = v.
Proof.
  unfold Vector.guard. intros E. rewrite E.
  unfold Vector.isNumber in E. apply andb_prop in E as [E _]. now rewrite E.
Qed.

(** [processArgs] reads nothing of the state but [__DEBUG__]. *)
Lemma processArgs_state (args : list value) (w w' : world) (r : float * float) :
  DEBUG w' = DEBUG w ->
  Vector.processArgs args w = Return r w ->
  Vector.processArgs args w' = Return r w'.
Proof.
  intros Ed. unfold Vector.processArgs.
  repeat match goal with
         | |- context [if ?b then _ else _] => destruct b
         end; try (intros [= <-]; reflexivity).
  unfold bind, gets. rewrite Ed.
  destruct (DEBUG w); [discriminate | intros [= <-]; reflexivity].
Qed.

Lemma new_eq (args : list value) (w : world) (x y : float) :
  Vector.processArgs args w = Return (x, y) w ->
  Vector.new args w =
  Return (vectorCount w) (alloc (mkVector (Vector.guard x) (Vector.guard y)) w).
Proof.
  intros E. unfold Vector.new, bind, gets, modify.
  pose proof (fun w' Ed => processArgs_state args w w' (x, y) Ed E) as E'.
  rewrite E' by reflexivity.
  unfold Vector.set_x, Vector.set_y, modify, ret. cbn.
  unfold alloc, with_vectors. cbn. rewrite !upd_same. cbn.
  now rewrite !upd_upd.
Qed.

Lemma create_eq (args : list value) (w : world) (x y : float) :
  Vector.processArgs args w = Return (x, y) w ->
  Vector.isNumber x = true -> Vector.isNumber y = true ->
  Vector.create args w = Return (vectorCount w) (alloc (mkVector x y) w).
Proof.
  intros E Fx Fy. unfold Vector.create, bind. rewrite E.
  rewrite (new_eq _ w x y).
  - now rewrite !guard_of_finite.
  - unfold Vector.processArgs. cbn. now rewrite Fx, Fy.
Qed.

(** A vector as the only argument of [Vector.create]: a new vector
    [(0, 0)]. *)
Lemma create_vector (r : ref) (w : world) :
  Vector.create [VectorRef r] w =
  Return (vectorCount w) (alloc (mkVector 0 0) w).
Proof. now apply create_eq. Qed.

(** The rest array holding a vector, as [dot], [cross], [distance],
    [reflect] and [equals] hand it to [Vector.create]. *)
Lemma create_rest_vector (r : ref) (w : world) :
  Vector.create [Array [VectorRef r]] w =
  if DEBUG w then Throw InvalidArgumentError w
  else Return (vectorCount w) (alloc (mkVector 0 0) w).
Proof.
  unfold Vector.create, bind. rewrite processArgs_rest_array.
  destruct (DEBUG w) eqn:Ed; [reflexivity|].
  rewrite (new_eq _ w 0 0); [reflexivity|]. reflexivity.
Qed.

Lemma add_eq (this : ref) (args : list value) (w : world) (x y : float) :
  Vector.processArgs args w = Return (x, y) w ->
  Vector.add this args w =
  Return this
    (store this
       (mkVector (Vector.guard (values_0 (vectors w this) + x))
                 (Vector.guard (values_1 (vectors w this) + y))) w).
Proof.
  intros E. unfold Vector.add, bind. rewrite E.
  unfold Vector.set_x, Vector.set_y, Vector.get_x, Vector.get_y, modify, gets,
    ret. cbn. unfold store, with_vectors. cbn. rewrite !upd_same. cbn.
  now rewrite !upd_upd.
Qed.

Lemma subtract_eq (this : ref) (args : list value) (w : world) (x y : float) :
  Vector.processArgs args w = Return (x, y) w ->
  Vector.subtract this args w =
  Return this
    (store this
       (mkVector (Vector.guard (values_0 (vectors w this) - x))
                 (Vector.guard (values_1 (vectors w this) - y))) w).
Proof.
  intros E. unfold Vector.subtract, bind. rewrite E.
  unfold Vector.set_x, Vector.set_y, Vector.get_x, Vector.get_y, modify, gets,
    ret. cbn. unfold store, with_vectors. cbn. rewrite !upd_same. cbn.
  now rewrite !upd_upd.
Qed.

Lemma static_add_vectors (a b : ref) (w : world) :
  Vector.static_add (VectorRef a) (VectorRef b) w =
  Return (vectorCount w) (alloc (mkVector 0 0) w).
Proof.
  unfold Vector.static_add, bind. rewrite create_vector.
  rewrite (add_eq _ _ _ 0 0 (processArgs_vector b _)).
  rewrite vectors_alloc_new. cbn [values_0 values_1].
  change (Vector.guard (0 + 0)) with 0%float. now rewrite store_alloc.
Qed.

Lemma static_subtract_vectors (a b : ref) (w : world) :
  Vector.static_subtract (VectorRef a) [VectorRef b] w =
  Return (vectorCount w) (alloc (mkVector 0 0) w).
Proof.
  unfold Vector.static_subtract, bind. rewrite create_vector.
  rewrite (subtract_eq _ _ _ 0 0 (processArgs_vector b _)).
  rewrite vectors_alloc_new. cbn [values_0 values_1].
  change (Vector.guard (0 - 0)) with 0%float. now rewrite store_alloc.
Qed.

Lemma magnitude_zero (w : world) :
  Vector.magnitude (vectorCount w) (alloc (mkVector 0 0) w) =
  Return 0%float (alloc (mkVector 0 0) w).
Proof.
  unfold Vector.magnitude, Vector.magnitudeSq, Vector.get_x, Vector.get_y,
    bind, gets, ret.
  now rewrite vectors_alloc_new.
Qed.

(** X6.  The static [Vector.add(a, b)] and [Vector.subtract(a, b)] on
    two vectors make one new vector and leave every other vector,
    [a] and [b] included, as it was; the new vector, which they return,
    is [(0, 0)] whatever [a] and [b] hold: [Vector.create(a)] copies
    nothing of [a], and the vector [b] is added as [[0, 0]]. *)
Theorem static_sum_is_zero (a b : ref) (w : world) :
  Vector.static_add (VectorRef a) (VectorRef b) w =
    Return (vectorCount w) (alloc (mkVector 0 0) w) /\
  Vector.static_subtract (VectorRef a) [VectorRef b] w =
    Return (vectorCount w) (alloc (mkVector 0 0) w) /\
  preserved w (alloc (mkVector 0 0) w).
Proof.
  split; [apply static_add_vectors|].
  split; [apply static_subtract_vectors|].
  apply preserved_alloc.
Qed.

(** X7.  [v.distance(a, b, ...)] called with finite numbers as its
    arguments, passed as separate arguments, however many, returns [0],
    whatever [v] and the numbers are: the difference is taken by the
    static [Vector.subtract(this, v)], which starts from a new [(0, 0)]
    and subtracts the vector as [[0, 0]].  Every vector that existed is
    left as it was.  (Numbers passed as one array are not covered: the
    array reaches [Vector.create] inside the rest array.) *)
Theorem distance_is_zero (this : ref) (args : list value) (w : world) :
  accepted [Array args] = true ->
  returns (Vector.distance this args) w (fun d w' =>
    d = 0%float /\ preserved w w' /\ frame w' = frame w).
Proof.
  intros Hacc.
  destruct (processArgs_accepted _ w Hacc) as (x & y & E & Fx & Fy).
  unfold returns, Vector.distance, bind.
  rewrite (create_eq _ w x y E Fx Fy), static_subtract_vectors, magnitude_zero.
  repeat split.
  eapply preserved_trans; [|apply preserved_alloc..]. cbn. lia.
Qed.

(** [new Vector(3, 4).distance(0, 0)] is not [5]. *)
Lemma distance_is_zero_witness :
  let w := final (Vector.new [Number 3; Number 4] (initial true)) in
  accepted [Array [Number 0; Number 0]] = true /\
  returns (Vector.distance 1 [Number 0; Number 0]) w (fun d w' =>
    d = 0%float /\ preserved w w' /\ frame w' = frame w).
Proof.
  intros w. split; [reflexivity|].
  exact (distance_is_zero 1 [Number 0; Number 0] w eq_refl).
Defined.

(** X8.  With two finite numbers, [v.dot(a, b)] is [v.x * a + v.y * b]
    and [v.cross(a, b)] is [v.x * b - v.y * a], a minus zero among the
    numbers counting as zero; the call makes one vector, [(a, b)], and
    touches no other. *)
Theorem dot_and_cross_of_numbers (this : ref) (a b : float) (w : world) :
  Vector.isNumber a = true -> Vector.isNumber b = true ->
  this < vectorCount w ->
  let a' := Vector.or_zero (Number a) in
  let b' := Vector.or_zero (Number b) in
  let x := values_0 (vectors w this) in
  let y := values_1 (vectors w this) in
  Vector.dot this [Number a; Number b] w =
    Return (x * a' + y * b')%float (alloc (mkVector a' b') w) /\
  Vector.cross this [Number a; Number b] w =
    Return (x * b' - y * a')%float (alloc (mkVector a' b') w).
Proof.
  intros Fa Fb Hthis a' b' x y.
  assert (E : Vector.processArgs [Array [Number a; Number b]] w =
              Return (a', b') w).
  { unfold Vector.processArgs. cbn. now rewrite Fa, Fb. }
  assert (Fa' : Vector.isNumber a' = true)
    by (apply or_zero_finite; now left).
  assert (Fb' : Vector.isNumber b' = true)
    by (apply or_zero_finite; now left).
  unfold Vector.dot, Vector.cross, bind.
  rewrite (create_eq _ w a' b' E Fa' Fb').
  unfold Vector.get_x, Vector.get_y, gets, ret.
  rewrite vectors_alloc_new, (preserved_alloc _ w this Hthis). now split.
Qed.

(** [new Vector(3, 4).dot(1, 2)] is [11] and [.cross(1, 2)] is [2]. *)
Lemma dot_and_cross_of_numbers_witness :
  let w := final (Vector.new [Number 3; Number 4] (initial true)) in
  Vector.dot 1 [Number 1; Number 2] w =
    Return 11%float (alloc (mkVector 1 2) w) /\
  Vector.cross 1 [Number 1; Number 2] w =
    Return 2%float (alloc (mkVector 1 2) w).
Proof.
  intros w.
  exact (dot_and_cross_of_numbers 1 1 2 w eq_refl eq_refl
           (le_n 2 : 1 < vectorCount w)).
Defined.

(** X9.  A vector whose components are zero (of either sign) is left
    alone by [normalize()] and by [setMagnitude(m)] for every [m]:
    both return the receiver and change nothing, nothing is divided by
    zero. *)
Theorem zero_vector_is_fixed (this : ref) (m : float) (w : world) :
  values_0 (vectors w this) = 0%float \/ values_0 (vectors w this) = (-0)%float ->
  values_1 (vectors w this) = 0%float \/ values_1 (vectors w this) = (-0)%float ->
  Vector.normalize this w = Return this w /\
  Vector.setMagnitude this m w = Return this w.
Proof.
  intros Hx Hy.
  assert (E : Vector.magnitudeSq this w = Return 0%float w).
  { unfold Vector.magnitudeSq, Vector.get_x, Vector.get_y, bind, gets, ret.
    destruct Hx as [-> | ->], Hy as [-> | ->]; reflexivity. }
  unfold Vector.normalize, Vector.setMagnitude, Vector.magnitude, bind.
  rewrite E. split; [reflexivity|].
  destruct (negb (Vector.isNumber m) || (m <? 0)%float); [reflexivity|].
  now rewrite E.
Qed.

(** [zeroVector] as the modules load it. *)
Lemma zero_vector_is_fixed_witness :
  Vector.normalize 0 (initial true) = Return 0 (initial true) /\
  Vector.setMagnitude 0 5 (initial true) = Return 0 (initial true).
Proof.
  exact (zero_vector_is_fixed 0 5 (initial true) (or_introl eq_refl)
           (or_introl eq_refl)).
Defined.

Lemma clamp_settles (x : float) :
  Vector.guard (Vector.clamp_component (Vector.guard (Vector.clamp_component x)))
  = Vector.guard (Vector.clamp_component x).
Proof.
  destruct (abs x <=? Vector.EPSILON)%float eqn:Ex.
  - assert (C : Vector.clamp_component x = 0%float)
      by (unfold Vector.clamp_component; now rewrite Ex).
    rewrite C. reflexivity.
  - assert (C : Vector.clamp_component x = x)
      by (unfold Vector.clamp_component; now rewrite Ex).
    rewrite C.
    assert (G : Vector.guard x = x \/ Vector.guard x = 0%float)
      by (unfold Vector.guard; destruct (_ && _); auto).
    destruct G as [G | G]; rewrite G; [now rewrite C | reflexivity].
Qed.

(** X10.  [clampToZero()] is idempotent: calling it twice leaves the
    state that calling it once leaves. *)
Theorem clampToZero_twice (this : ref) (w : world) :
  (Vector.clampToZero this;; Vector.clampToZero this) w
  = Vector.clampToZero this w.
Proof.
  unfold Vector.clampToZero, Vector.set_x, Vector.set_y, Vector.get_x,
    Vector.get_y, bind, gets, modify, ret. cbn.
  rewrite !upd_same. cbn. rewrite !upd_upd, !clamp_settles. reflexivity.
Qed.

(** X11.  [reflect], [distance] and [equals] called with a vector as
    their argument hand [Vector.create] an array that holds a vector.
    Under [__DEBUG__] each of them throws [InvalidArgumentError] and
    changes nothing.  Otherwise the argument counts as [(0, 0)],
    whatever it holds: [reflect] returns the receiver unreflected,
    [distance] returns [0], and [equals] tells whether the receiver is
    within [EPSILON] of the origin. *)
Theorem vector_argument_through_create (this r : ref) (w : world) :
  Vector.reflect this [VectorRef r] w =
    (if DEBUG w then Throw InvalidArgumentError w
     else Return this (alloc (mkVector 0 0) w)) /\
  Vector.distance this [VectorRef r] w =
    (if DEBUG w then Throw InvalidArgumentError w
     else Return 0%float (alloc (mkVector 0 0) (alloc (mkVector 0 0) w))) /\
  Vector.equals this [VectorRef r] w =
    (if DEBUG w then Throw InvalidArgumentError w
     else
       let v := vectors (alloc (mkVector 0 0) w) this in
       Return ((abs (values_0 v - 0) <? Vector.EPSILON)%float &&
               (abs (values_1 v - 0) <? Vector.EPSILON)%float)
         (alloc (mkVector 0 0) w)).
Proof.
  unfold Vector.reflect, Vector.distance, Vector.equals, bind.
  rewrite create_rest_vector. destruct (DEBUG w); [auto|].
  rewrite static_subtract_vectors, magnitude_zero.
  unfold Vector.magnitudeSq, Vector.get_x, Vector.get_y, bind, gets, ret.
  rewrite vectors_alloc_new. cbn [values_0 values_1]. auto.
Qed.

(** ** Particles of one pool *)

(** [update] leaves every other particle as it was, and leaves every
    particle the options object it had. *)
Lemma update_others (p q : ref) (dt : float) (w : world) :
  finite w -> forceable w p -> Vector.isNumber (dt * dt) = true ->
  returns (Particle.update p dt) w (fun _ w' =>
    options (particles w' q) = options (particles w q) /\
    (q <> p -> particles w' q = particles w q)).
Proof.
  intros F Hf Hdt. unfold Particle.update.
  apply returns_bind. eapply returns_weaken;
    [apply eulerUpdate_spec; assumption | cbv beta].
  intros [newPosition oldPosition] w1 (F1 & Fr & _).
  destruct w1 as [d1 v1 n1 o1 p1 c1 e1 l1 k1 h1 h21 log1].
  unfold frame in Fr. cbn in Fr. injection Fr as -> -> -> -> -> -> -> -> -> ->.
  unfold returns, bind, update_particle, update_options, options_of,
    Vector.get_y, Particle.destroy, particle, invoke, pool_release,
    modify, gets, ret.
  cbn [particles optionsStore vectors with_particles with_options].
  repeat (rewrite !upd_same;
          cbn [options set_position set_prevPosition set_active set_callback
               lifespan set_lifespan set_alpha lifeRange isStatic mass gravity]).
  destruct (_ - dt <? 0)%float.
  - unfold bind, update_particle, modify.
    cbn [particles with_particles with_options]. rewrite !upd_same.
    cbn [callback set_active set_position set_prevPosition].
    destruct (callback (particles w p)) as [[]|]; cbn;
      (destruct (Nat.eq_dec q p) as [->|Hne];
       [ rewrite !upd_same; cbn; split; [reflexivity | intros []; reflexivity]
       | rewrite !upd_other by exact Hne; split; reflexivity ]).
  - cbn. destruct (Nat.eq_dec q p) as [->|Hne].
    + rewrite !upd_same. cbn. split; [reflexivity | intros []; reflexivity].
    + rewrite !upd_other by exact Hne. split; reflexivity.
Qed.

Lemma returns_and {A} (c : M A) (w : world) (Q Q' : A -> world -> Prop) :
  returns c w Q -> returns c w Q' -> returns c w (fun a w' => Q a w' /\ Q' a w').
Proof. unfold returns. destruct (c w); tauto. Qed.

(** Making an emitter and spawning write into no options object. *)
Lemma addParticles_options (o : ref) (w : world) :
  emitting o w ->
  returns Emitter.addParticles w (fun _ w' => optionsStore w' = optionsStore w).
Proof.
  intros (F & Hwf & _ & Hopt & Hvx & Hvy & _).
  pose proof Hwf as (_ & _ & (_ & Hall & _) & Hfull).
  unfold Emitter.addParticles. apply returns_bind.
  unfold returns at 1, Emitter.acquire.
  destruct (acquire_full (pool w) w Hfull) as [(x & rest & Ei & E)|[Ei E]];
    rewrite E in *.
  - assert (Hx : In x (Pool.allObjects (pool w))).
    { apply Hall. right. rewrite Ei. apply in_app_iff. right. now left. }
    unfold options_of. apply returns_bind, returns_gets.
    cbn [particles optionsStore with_emitter]. rewrite (Hopt x Hx).
    apply returns_bind. eapply returns_weaken;
      [apply new_spec; [exact F | now apply numbers_accepted]|].
    cbv beta. intros vel w2 (_ & _ & F2 & Fr2 & _).
    apply frame_fields in Fr2 as (_ & Eo2 & _). cbn in Eo2.
    apply returns_bind, returns_gets.
    eapply returns_weaken; [apply init_spec; exact F2|].
    cbv beta. intros _ w3 (_ & _ & Eo3 & _). congruence.
  - now apply returns_ret.
Qed.

Lemma spawn_options (o : ref) (n : nat) (w : world) :
  emitting o w ->
  returns (Emitter.spawn n) w (fun _ w' => optionsStore w' = optionsStore w).
Proof.
  revert w. induction n as [|n IH]; intros w Hw.
  - now apply returns_ret.
  - cbn [Emitter.spawn]. apply returns_bind.
    eapply returns_weaken;
      [apply returns_and; [apply addParticles_spec, Hw
                          | apply (addParticles_options o), Hw] | cbv beta].
    intros _ w1 [(Hw1 & _) Eo1].
    eapply returns_weaken; [apply IH, Hw1 | cbv beta].
    intros _ w2 Eo2. congruence.
Qed.

Lemma emitter_new_options (position0 o : ref) (capacity : nat) (w : world) :
  finite w ->
  returns (Emitter.new position0 o capacity) w (fun _ w' =>
    optionsStore w' = optionsStore w).
Proof.
  intros F. unfold Emitter.new.
  apply returns_bind. eapply returns_weaken; [apply clone_spec, F | cbv beta].
  intros pos w1 (_ & _ & _ & Fr1 & _).
  apply frame_fields in Fr1 as (_ & Eo1 & _).
  apply returns_modify.
  pose proof (init_loop_world capacity (Pool.mk [] [] [] capacity o) w1) as Hsnd.
  cbn zeta in Hsnd. unfold Pool.new, Pool.init. cbn [Pool.maxSize].
  destruct (Pool.init_loop capacity _ w1) as [pl w2]. cbn [fst snd] in *.
  destruct Hsnd as (_ & _ & Eo & _). cbn. congruence.
Qed.

(** X12.  All particles of an emitter's pool carry the one options
    object the pool was given, and [update(dt)] takes [dt] off the
    [lifespan] in it: after an emitter is made and asked [n] times for a
    particle, one [update(dt)] of any one particle of the pool, active
    or not, leaves every particle of the pool with the lifespan the
    options started with less [dt]. *)
Theorem pooled_particles_age_together
    (position0 o : ref) (capacity n : nat) (dt : float) (w : world) :
  finite w ->
  Vector.isNumber (vx (optionsStore w o)) = true ->
  Vector.isNumber (vy (optionsStore w o)) = true ->
  Vector.isNumber (dt * dt) = true ->
  isStatic (optionsStore w o) = true \/
  Vector.isNumber (mass (optionsStore w o)) = true /\
  accepted [gravity (optionsStore w o)] = true ->
  returns (Emitter.new position0 o capacity;; Emitter.spawn n) w (fun _ w1 =>
    forall p q,
      In p (Pool.allObjects (pool w1)) -> In q (Pool.allObjects (pool w1)) ->
      returns (Particle.update p dt) w1 (fun _ w2 =>
        lifespan (optionsStore w2 (options (particles w2 q)))
        = (lifespan (optionsStore w o) - dt)%float)).
Proof.
  intros F Hvx Hvy Hdt Hf. apply returns_bind.
  eapply returns_weaken;
    [apply returns_and; [now apply emitter_new_spec
                        | now apply emitter_new_options] | cbv beta].
  intros _ w1 [(Hw1 & _) Eo1].
  eapply returns_weaken;
    [apply returns_and; [apply spawn_spec, Hw1 | apply (spawn_options o), Hw1]
    | cbv beta].
  intros _ w2 [(Hw2 & _) Eo2]. rewrite Eo1 in Eo2.
  destruct Hw2 as (F2 & _ & _ & Hopt & _).
  intros p q Hp Hq.
  assert (Hf2 : forceable w2 p)
    by (unfold forceable; now rewrite (Hopt p Hp), Eo2).
  eapply returns_weaken;
    [apply returns_and; [now apply update_spec
                        | now apply (update_others p q)] | cbv beta].
  intros _ w3 [[_ A] [Eq _]]. unfold aged in A.
  destruct A as (_ & _ & El & _).
  now rewrite Eq, (Hopt q Hq), <- (Hopt p Hp), El, (Hopt p Hp), Eo2.
Qed.

(** Two particles spawned by an emitter with room for three, whose
    options give a lifespan of [5]. *)
Lemma pooled_particles_age_together_witness :
  let w :=
    final (put_options 0 (mkOptions false 2 5 0 1 1 0 Undefined 0 0 0)
             (initial true)) in
  returns (Emitter.new 0 0 3;; Emitter.spawn 2) w (fun _ w1 =>
    forall p q,
      In p (Pool.allObjects (pool w1)) -> In q (Pool.allObjects (pool w1)) ->
      returns (Particle.update p 0.5) w1 (fun _ w2 =>
        lifespan (optionsStore w2 (options (particles w2 q)))
        = (lifespan (optionsStore w 0%nat) - 0.5)%float)).
Proof.
  intros w.
  assert (F : finite w) by (intros r; split; reflexivity).
  apply (pooled_particles_age_together 0 0 3 2 0.5 w F);
    [reflexivity | reflexivity | reflexivity | right; split; reflexivity].
Defined.

(** ** Destroying a particle *)

Lemma release_moves (object : ref) (p : Pool.t) :
  pool_wf p -> In object (Pool.activeObjects p) ->
  ~ In object (Pool.activeObjects (Pool.release object p)) /\
  Pool.inactiveObjects (Pool.release object p)
  = Pool.inactiveObjects p ++ [object].
Proof.
  intros (Ha & _ & (Hdisj & _) & _) Hin. unfold Pool.release.
  destruct (indexOf (Pool.activeObjects p) object) as [i|] eqn:Ei.
  - destruct (indexOf (Pool.inactiveObjects p) object) as [j|] eqn:Ej.
    { exfalso. apply (Hdisj object). eauto using indexOf_Some_In. }
    cbn. split; [|reflexivity].
    intros Hx. apply (splice1_In _ _ _ Ei Ha) in Hx. tauto.
  - apply indexOf_None in Ei. tauto.
Qed.

Lemma upd_id {A} (r : ref) (f : ref -> A) : upd r (f r) f = f.
Proof.
  apply functional_extensionality. intros r'. unfold upd.
  now destruct (Nat.eqb_spec r' r) as [->|_].
Qed.

(** [destroy()] of an inactive particle with no callback does nothing. *)
Lemma destroy_inert (p : ref) (w : world) :
  active (particles w p) = false -> callback (particles w p) = None ->
  Particle.destroy p w = Return tt w.
Proof.
  intros Ha Hc.
  assert (E1 : set_active false (particles w p) = particles w p).
  { destruct (particles w p). cbn in Ha. now subst. }
  assert (E2 : set_callback None (particles w p) = particles w p).
  { destruct (particles w p). cbn in Hc. now subst. }
  unfold Particle.destroy, bind, update_particle, particle, modify, gets, ret.
  rewrite E1, upd_id. destruct w. cbn in *. rewrite Hc. cbn.
  now rewrite E2, upd_id.
Qed.

(** X13.  [destroy()] of a particle that the pool lists as active and
    that holds the emitter's [release] as its callback: the particle is
    made inactive, the callback is called once and then cleared, and the
    particle leaves the pool's active array for the end of its inactive
    array, from where [acquire()] takes it next.  A second [destroy()]
    then changes nothing at all. *)
Theorem destroy_returns_to_pool (p : ref) (w : world) :
  pool_wf (pool w) -> In p (Pool.activeObjects (pool w)) ->
  callback (particles w p) = Some EmitterRelease ->
  returns (Particle.destroy p) w (fun _ w1 =>
    active (particles w1 p) = false /\
    callback (particles w1 p) = None /\
    callbackLog w1 = callbackLog w ++ [p] /\
    ~ In p (Pool.activeObjects (pool w1)) /\
    pop (Pool.inactiveObjects (pool w1))
      = Some (p, Pool.inactiveObjects (pool w)) /\
    Particle.destroy p w1 = Return tt w1).
Proof.
  intros Hwf Hin Hc.
  destruct (release_moves p (pool w) Hwf Hin) as [Hout Hinact].
  unfold returns.
  destruct (Particle.destroy p w) as [[] w1|e w1] eqn:E.
  - unfold Particle.destroy, bind, update_particle, particle, invoke,
      pool_release, modify, gets, ret in E.
    cbn [particles with_particles] in E. rewrite upd_same in E.
    cbn [callback set_active] in E. rewrite Hc in E.
    cbn in E. injection E as <-.
    repeat match goal with |- _ /\ _ => split end.
    + cbn. now rewrite !upd_same.
    + cbn. now rewrite !upd_same.
    + reflexivity.
    + exact Hout.
    + cbn. rewrite Hinact. apply pop_app.
    + apply destroy_inert; cbn; now rewrite !upd_same.
  - unfold Particle.destroy, bind, update_particle, particle, invoke,
      pool_release, modify, gets, ret in E.
    cbn [particles with_particles] in E. rewrite upd_same in E.
    cbn [callback set_active] in E. rewrite Hc in E. discriminate.
Qed.

(** The first particle an emitter spawns. *)
Lemma destroy_returns_to_pool_witness :
  let w := final ((Emitter.new 0 0 2;; Emitter.spawn 1) (initial true)) in
  returns (Particle.destroy 1) w (fun _ w1 =>
    active (particles w1 1) = false /\
    callback (particles w1 1) = None /\
    callbackLog w1 = callbackLog w ++ [1] /\
    ~ In 1 (Pool.activeObjects (pool w1)) /\
    pop (Pool.inactiveObjects (pool w1))
      = Some (1, Pool.inactiveObjects (pool w)) /\
    Particle.destroy 1 w1 = Return tt w1).
Proof.
  intros w. apply (destroy_returns_to_pool 1 w).
  - unfold pool_wf, Pool.partitioned. vm_compute.
    split; [|split; [|split; [split; [|split]|]]].
    + constructor; [intros []|constructor].
    + constructor; [intros []|constructor].
    + intros x [[<-|[]] [E|[]]]. discriminate.
    + intros x. tauto.
    + constructor.
    + reflexivity.
  - vm_compute. auto.
  - reflexivity.
Defined.

(** ** Bouncing off the edges *)

Lemma ltb_irrefl (x : float) : (x <? x)%float = false.
Proof.
  rewrite ltb_spec. unfold SFltb.
  destruct (Prim2SF x) as [s|s| |s m e]; cbn; try reflexivity.
  - now destruct s.
  - rewrite Z.compare_refl, Pos.compare_cont_refl. now destruct s.
Qed.

(** X14.  [checkBoundaries(ctx)] leaves the position within the bounds:
    when the radius and the two far bounds, [ctx.width - radius] and
    [ctx.height - radius], are finite numbers, no far bound is below
    the radius, and the position and the velocity of the particle are
    two objects, then afterwards no component of the position is beyond
    its far bound or below the radius.  The particle keeps its
    vectors. *)
Theorem checkBoundaries_contains (p : ref) (width height : float) (w : world) :
  let this := particles w p in
  let r := radius (optionsStore w (options this)) in
  position this <> velocity this ->
  Vector.isNumber r = true ->
  Vector.isNumber (width - r) = true ->
  Vector.isNumber (height - r) = true ->
  (width - r <? r)%float = false ->
  (height - r <? r)%float = false ->
  returns (Particle.checkBoundaries p width height) w (fun _ w' =>
    let pos := vectors w' (position this) in
    particles w' = particles w /\
    (width - r <? values_0 pos)%float = false /\
    (values_0 pos <? r)%float = false /\
    (height - r <? values_1 pos)%float = false /\
    (values_1 pos <? r)%float = false).
Proof.
  intros this r Hne Fr Fw Fh Hw Hh.
  pose proof (guard_of_finite _ Fr) as Gr.
  pose proof (guard_of_finite _ Fw) as Gw.
  pose proof (guard_of_finite _ Fh) as Gh.
  unfold Particle.checkBoundaries, particle, options_of, Vector.get_x,
    Vector.get_y.
  do 3 (apply returns_bind, returns_gets). fold this. fold r.
  apply returns_bind.
  apply (returns_weaken _ _ (fun _ w1 =>
    particles w1 = particles w /\
    (width - r <? values_0 (vectors w1 (position this)))%float = false /\
    (values_0 (vectors w1 (position this)) <? r)%float = false)).
  - destruct (width - r <? values_0 (vectors w (position this)))%float eqn:E1;
      [|destruct (values_0 (vectors w (position this)) <? r)%float eqn:E2];
      [| |now apply returns_ret];
      unfold returns, bind, Vector.set_x, Vector.get_x, modify, gets; cbn;
      rewrite (upd_other _ _ _ _ Hne), upd_same; cbn;
      rewrite ?Gw, ?Gr; auto using ltb_irrefl.
  - intros _ w1 (Ep & X1 & X2). apply returns_bind, returns_gets.
    destruct (height - r <? values_1 (vectors w1 (position this)))%float eqn:E1;
      [|destruct (values_1 (vectors w1 (position this)) <? r)%float eqn:E2];
      [| |now apply returns_ret];
      unfold returns, bind, Vector.set_y, Vector.get_y, modify, gets; cbn;
      rewrite (upd_other _ _ _ _ Hne), upd_same; cbn;
      rewrite ?Gh, ?Gr; auto 6 using ltb_irrefl.
Qed.

(** A particle of radius [1] at [(12, -3)] with velocity [(2, -1)] in a
    context [10] wide and [8] high. *)
Lemma checkBoundaries_contains_witness :
  let w :=
    final (activate 0
             (fun range => mkOptions false 1 5 range 1 1 0 Undefined 0 0 0)
             12 (-3) 2 (-1) (initial true)) in
  returns (Particle.checkBoundaries 0 10 8) w (fun _ w' =>
    let pos := vectors w' (position (particles w 0)) in
    particles w' = particles w /\
    (10 - 1 <? values_0 pos)%float = false /\
    (values_0 pos <? 1)%float = false /\
    (8 - 1 <? values_1 pos)%float = false /\
    (values_1 pos <? 1)%float = false).
Proof.
  intros w.
  apply (checkBoundaries_contains 0 10 8 w);
    [discriminate | reflexivity..].
Defined.

(** ** The seeded generator *)

Section Seeds.
Import PrimInt63 Uint63.Uint63Notations.

Lemma In_upto (n : nat) (a s : PrimInt63.int) :
  (Uint63.to_Z a <= Uint63.to_Z s < Uint63.to_Z a + Z.of_nat n)%Z ->
  In s (upto n a).
Proof.
  revert a. induction n as [|n IH]; intros a Hs; [lia|].
  cbn [upto].
  destruct (Z.eq_dec (Uint63.to_Z a) (Uint63.to_Z s)) as [E|Hne];
    [left; now apply Uint63.to_Z_inj|].
  right. apply IH.
  pose proof (Uint63.to_Z_bounded s) as Hb.
  pose proof (Uint63.to_Z_bounded a) as Ha.
  rewrite Uint63.succ_spec, Z.mod_small by lia. lia.
Qed.

Lemma In_below (s : PrimInt63.int) :
  (Uint63.to_Z s < 233280)%Z -> In s (upto Utility.modulus Utility.seed0).
Proof.
  intros Hs. apply In_upto. pose proof (Uint63.to_Z_bounded s).
  unfold Utility.modulus. rewrite N_nat_Z.
  change (Uint63.to_Z Utility.seed0) with 0%Z. lia.
Qed.

Lemma next_seed_lt (seed : PrimInt63.int) :
  (Uint63.to_Z (Utility.next_seed seed) < 233280)%Z.
Proof.
  unfold Utility.next_seed. rewrite Uint63.mod_spec.
  change (Uint63.to_Z 233280%uint63) with 233280%Z.
  now apply Z.mod_pos_bound.
Qed.

(** On the seeds the generator goes through, the product and the sum of
    the sources are the integer product and sum, on binary64 numbers as
    on 63-bit integers. *)
Lemma seed_arithmetic_exact (seed : PrimInt63.int) :
  (Uint63.to_Z seed < 233280)%Z ->
  (of_uint63 seed * 9301 + 49297)%float
    = of_uint63 (PrimInt63.add (PrimInt63.mul seed 9301%uint63) 49297%uint63) /\
  Uint63.to_Z (PrimInt63.add (PrimInt63.mul seed 9301%uint63) 49297%uint63)
    = (Uint63.to_Z seed * 9301 + 49297)%Z.
Proof.
  intros Hs. split.
  - assert (Hall : forallb (fun s =>
              Leibniz.eqb (of_uint63 s * 9301 + 49297)
                (of_uint63 (PrimInt63.add (PrimInt63.mul s 9301%uint63)
                              49297%uint63)))
              (upto Utility.modulus Utility.seed0) = true)
      by (vm_compute; reflexivity).
    rewrite forallb_forall in Hall.
    now apply Leibniz.eqb_spec, Hall, In_below.
  - pose proof (Uint63.to_Z_bounded seed) as Hb.
    rewrite Uint63.add_spec, Uint63.mul_spec.
    change (Uint63.to_Z 9301%uint63) with 9301%Z.
    change (Uint63.to_Z 49297%uint63) with 49297%Z.
    change Uint63.wB with 9223372036854775808%Z.
    rewrite (Z.mod_small (_ * _)) by lia. apply Z.mod_small. lia.
Qed.

(** X15.  Every number the seeded generator draws, however many draws
    came before, is at least [0] and below [1], and the seed it leaves
    is an integer below [233280]. *)
Theorem seededRandom_in_unit_interval (k : nat) :
  let draw := Utility.seededRandom (Utility.seed_after k Utility.seed0) in
  (0 <=? fst draw)%float = true /\ (fst draw <? 1)%float = true /\
  (Uint63.to_Z (snd draw) < 233280)%Z.
Proof.
  cbv zeta. unfold Utility.seededRandom. cbn [fst snd].
  pose proof (next_seed_lt (Utility.seed_after k Utility.seed0)) as Hs.
  assert (Hall : forallb (fun s =>
            (0 <=? of_uint63 s / 233280)%float &&
            (of_uint63 s / 233280 <? 1)%float)
            (upto Utility.modulus Utility.seed0) = true)
    by (vm_compute; reflexivity).
  rewrite forallb_forall in Hall.
  apply In_below, Hall, andb_prop in Hs as [H0 H1].
  auto using next_seed_lt.
Qed.

(** The first [n] seeds after [s] are not the first seed. *)
Lemma away_spec (n : nat) (s : PrimInt63.int) :
  forallb (fun x => negb (PrimInt63.eqb x Utility.seed0)) (orbit n s) = true ->
  forall k, 0 < k <= n -> Utility.seed_after k s <> Utility.seed0.
Proof.
  revert s. induction n as [|n IH]; intros s Hn k Hk; [lia|].
  cbn [orbit forallb] in Hn. apply andb_prop in Hn as [Hs Hn].
  destruct k as [|[|k]]; [lia| |].
  - cbn [Utility.seed_after]. intros E. rewrite E in Hs. discriminate.
  - change (Utility.seed_after (S (S k)) s)
      with (Utility.seed_after (S k) (Utility.next_seed s)).
    apply IH; [exact Hn | lia].
Qed.

(** X16.  The generator has the full period: started from the seed [0]
    of the sources, the seed is [0] again after exactly [233280] draws
    and after no fewer, so the sequence of numbers drawn repeats every
    [233280] draws. *)
Theorem seed_period (k : nat) :
  Utility.seed_after Utility.modulus Utility.seed0 = Utility.seed0 /\
  (0 < k < Utility.modulus ->
   Utility.seed_after k Utility.seed0 <> Utility.seed0) /\
  Utility.seed_after (k + Utility.modulus) Utility.seed0
  = Utility.seed_after k Utility.seed0.
Proof.
  assert (E : Utility.seed_after Utility.modulus Utility.seed0 = Utility.seed0)
    by (vm_compute; reflexivity).
  assert (Hadd : forall a b s,
            Utility.seed_after (a + b) s
            = Utility.seed_after b (Utility.seed_after a s)).
  { induction a as [|a IH]; intros b s; [reflexivity|]. cbn. apply IH. }
  split; [exact E|]. split.
  - intros Hk. apply (away_spec (Nat.pred Utility.modulus) Utility.seed0); [|lia].
    vm_compute. reflexivity.
  - rewrite Nat.add_comm, Hadd, E. reflexivity.
Qed.

End Seeds.

(** ** The acceleration of a particle *)

Lemma steady_keeps {A} (c : M A) : keeps c -> steady c.
Proof.
  intros Hc w F Ha. destruct (Hc w F) as [F1 Fr1]. split; [exact F1|].
  apply frame_fields in Fr1 as (_ & _ & Ep & _). intros q. rewrite Ep. apply Ha.
Qed.

Lemma steady_bind {A B} (c : M A) (k : A -> M B) :
  steady c -> (forall a, steady (k a)) -> steady (bind c k).
Proof.
  intros Hc Hk w F Ha. unfold bind. destruct (Hc w F Ha) as [F1 Ha1].
  destruct (c w) as [a w1|e w1]; cbn in F1, Ha1; [|now split].
  apply (Hk a w1 F1 Ha1).
Qed.

Lemma steady_modify (f : world -> world) :
  (forall w, vectors (f w) = vectors w /\ particles (f w) = particles w) ->
  steady (modify f).
Proof.
  intros Hf w F Ha. destruct (Hf w) as [Ev Ep]. cbn. split.
  - intros r. rewrite Ev. apply F.
  - intros q. rewrite Ep. apply Ha.
Qed.

Lemma steady_update_particle (p : ref) (f : ParticleObj -> ParticleObj) :
  (forall x, acceleration (f x) = acceleration x) ->
  steady (update_particle p f).
Proof.
  intros Hf w F Ha. split; [exact F|]. intros q. cbn. unfold upd.
  destruct (Nat.eqb q p); [rewrite Hf|]; apply Ha.
Qed.

Lemma steady_for_of {A} (l : list A) (body : A -> M unit) :
  (forall a, steady (body a)) -> steady (for_of l body).
Proof.
  intros Hb. induction l as [|a l IH]; cbn [for_of].
  - apply steady_keeps, keeps_ret.
  - apply steady_bind; [apply Hb | intros _; exact IH].
Qed.

Lemma steady_construct (o : ref) (w : world) :
  finite w -> shared_acceleration w ->
  finite (construct o w) /\ shared_acceleration (construct o w).
Proof.
  intros F Ha. split; [exact F|]. intros q. cbn. unfold upd.
  destruct (Nat.eqb q (particleCount w)); [reflexivity | apply Ha].
Qed.

Lemma steady_init_loop (n : nat) (pl : Pool.t) (w : world) :
  finite w -> shared_acceleration w ->
  finite (snd (Pool.init_loop n pl w)) /\
  shared_acceleration (snd (Pool.init_loop n pl w)).
Proof.
  revert pl w. induction n as [|n IH]; intros pl w F Ha; [now split|].
  cbn [Pool.init_loop Pool.createObject].
  destruct (steady_construct (Pool.options pl) w F Ha) as [F1 Ha1].
  now apply IH.
Qed.

Lemma steady_acquire : steady Emitter.acquire.
Proof.
  intros w F Ha. unfold Emitter.acquire, Pool.acquire, Pool.createObject.
  destruct (pop _) as [[object rest]|]; [now split|].
  destruct (_ <? _); [|now split].
  apply (steady_construct (Pool.options (pool w)) w F Ha).
Qed.

Lemma keeps_static_divide (v1 : value) (args : list value) :
  keeps (Vector.static_divide v1 args).
Proof. unfold Vector.static_divide. keeping. Qed.

Lemma keeps_randomDirection (cs : float * float) :
  keeps (Vector.randomDirection cs).
Proof. unfold Vector.randomDirection. keeping. Qed.

Create HintDb steady.
#[local] Hint Resolve steady_acquire : steady.
#[local] Hint Extern 1 (steady (update_particle _ _)) =>
  apply steady_update_particle; intros []; reflexivity : steady.
#[local] Hint Extern 1 (steady (modify _)) =>
  apply steady_modify; intros ?; split; reflexivity : steady.
#[local] Hint Extern 2 (steady _) =>
  apply steady_keeps;
  auto using keeps_static_divide, keeps_randomDirection with keeps : steady.

(** A computation put together from pieces that are steady. *)
Ltac steadying :=
  repeat first
    [ solve [auto with steady]
    | apply steady_bind; [|intros ?]
    | apply steady_for_of; intros ?
    | match goal with
      | |- steady (if ?b then _ else _) => destruct b
      | |- steady (match ?x with _ => _ end) => destruct x
      end ].

Lemma steady_invoke (f : callback_fn) (p : ref) : steady (invoke f p).
Proof. unfold invoke, pool_release. steadying. Qed.

Lemma steady_destroy (p : ref) : steady (Particle.destroy p).
Proof.
  unfold Particle.destroy, particle. pose proof steady_invoke. steadying.
Qed.

Lemma steady_init (p : ref) (cb : callback_fn) (position velocity : ref) :
  steady (Particle.init p cb position velocity).
Proof. unfold Particle.init, particle. steadying. Qed.

Lemma steady_applyForce (p : ref) (force : value) :
  steady (Particle.applyForce p force).
Proof. unfold Particle.applyForce, particle, options_of. steadying. Qed.

Lemma steady_update (p : ref) (dt : float) : steady (Particle.update p dt).
Proof.
  unfold Particle.update, Utility.eulerUpdate, particle, options_of,
    update_options, Vector.get_y.
  pose proof steady_applyForce. pose proof steady_destroy. steadying.
Qed.

Lemma steady_act (a : action) : steady (act a).
Proof.
  destruct a; cbn [act].
  - unfold Emitter.new. apply steady_bind; [steadying|]. intros pos w F Ha.
    cbn. pose proof (steady_init_loop capacity
                       (Pool.mk [] [] [] capacity pOptions) w F Ha) as Hl.
    unfold Pool.new, Pool.init. cbn [Pool.maxSize].
    destruct (Pool.init_loop _ _ w) as [pl w']. exact Hl.
  - unfold Emitter.addParticles, options_of. pose proof steady_init.
    steadying.
  - apply steady_init.
  - apply steady_destroy.
  - unfold Particle.reset. steadying.
  - apply steady_applyForce.
  - apply steady_update.
  - unfold Particle.checkCollision, particle, options_of. cbv zeta. steadying.
  - unfold Particle.checkBoundaries, particle, options_of, Vector.get_x,
      Vector.get_y. steadying.
  - unfold Particle.calculateDensities, Particle.setSmoothingRadius,
      Particle.poly6KernelSq, particle, options_of, update_options.
    cbv zeta. steadying.
Qed.



(** ** Copies of a vector *)

Lemma processArgs_numbers (x y : float) (w : world) :
  Vector.isNumber x = true -> Vector.isNumber y = true ->
  Vector.processArgs [Number x; Number y] w = Return (x, y) w.
Proof.
  intros Fx Fy. unfold Vector.processArgs. cbn. now rewrite Fx, Fy.
Qed.

(** X18.  [clone()] and [copy()] take the components over as they are:
    when all components are finite, [clone()], and [copy()] without an
    argument, return a new object that holds the components of the
    receiver, and change no vector that existed; [copy(v)] gives the
    receiver the components of [v], changes no other vector, and
    returns the receiver. *)
Theorem clone_and_copy (this r : ref) (w : world) :
  finite w ->
  Vector.clone this w = Return (vectorCount w) (alloc (vectors w this) w) /\
  Vector.copy this Undefined w
    = Return (vectorCount w) (alloc (vectors w this) w) /\
  Vector.copy this (VectorRef r) w = Return this (store this (vectors w r) w).
Proof.
  intros F.
  assert (Hc : Vector.clone this w
               = Return (vectorCount w) (alloc (vectors w this) w)).
  { destruct (F this) as [Fx Fy].
    unfold Vector.clone, Vector.get_x, Vector.get_y, bind, gets.
    rewrite (new_eq _ w _ _ (processArgs_numbers _ _ w Fx Fy)).
    rewrite !guard_of_finite by assumption. now destruct (vectors w this). }
  split; [exact Hc|]. split; [exact Hc|].
  destruct (F r) as [Fx Fy].
  unfold Vector.copy, Vector.set, Vector.get_x, Vector.get_y, bind, gets.
  rewrite (processArgs_numbers _ _ w Fx Fy).
  unfold Vector.set_x, Vector.set_y, modify, ret, store. cbn.
  rewrite upd_same, upd_upd. cbn. rewrite !guard_of_finite by assumption.
  now destruct (vectors w r).
Qed.

(** [zeroVector] cloned, and [v = new Vector(3, 4)] copied into it. *)
Lemma clone_and_copy_witness :
  let w := final (Vector.new [Number 3; Number 4] (initial true)) in
  Vector.clone 0 w = Return 2 (alloc (mkVector 0 0) w) /\
  Vector.copy 0 Undefined w = Return 2 (alloc (mkVector 0 0) w) /\
  Vector.copy 0 (VectorRef 1) w = Return 0 (store 0 (mkVector 3 4) w).
Proof.
  intros w. apply (clone_and_copy 0 1 w).
  intros r. do 3 (try destruct r as [|r]); vm_compute; split; reflexivity.
Defined.

(** ** An emitter with no particle left *)

(** X19.  [addParticles()] on an emitter whose pool has no inactive
    particle and is filled to its capacity does nothing at all: no
    particle is made or changed, and nothing is thrown. *)
Theorem addParticles_when_exhausted (w : world) :
  Pool.inactiveObjects (pool w) = [] ->
  Pool.maxSize (pool w) <= length (Pool.allObjects (pool w)) ->
  Emitter.addParticles w = Return tt w.
Proof.
  intros Hi Hfull.
  unfold Emitter.addParticles, Emitter.acquire, Pool.acquire, bind.
  rewrite Hi. cbn [pop].
  apply Nat.ltb_ge in Hfull. rewrite Hfull. now destruct w.
Qed.

(** An emitter with room for one particle that has spawned it. *)
Lemma addParticles_when_exhausted_witness :
  let w := final ((Emitter.new 0 0 1;; Emitter.spawn 1) (initial true)) in
  Emitter.addParticles w = Return tt w.
Proof.
  intros w. apply (addParticles_when_exhausted w); [reflexivity|].
  vm_compute. constructor.
Defined.

(** ** The [dead] getter *)

(** X20.  After [update(dt)] of an active particle the [dead] getter
    tells whether that update has destroyed the particle: it answers
    [true] exactly when the particle is no longer active. *)
Theorem dead_after_update (p : ref) (dt : float) (w : world) :
  finite w -> forceable w p -> Vector.isNumber (dt * dt) = true ->
  active (particles w p) = true ->
  returns (Particle.update p dt) w (fun _ w' =>
    Particle.dead p w' = Return (negb (active (particles w' p))) w').
Proof.
  intros F Hf Hdt Ha.
  eapply returns_weaken; [now apply update_spec | cbv beta].
  intros _ w' [_ A]. unfold aged in A.
  destruct A as (_ & Eo & El & _ & _ & _ & A).
  unfold Particle.dead, options_of, bind, gets, ret. rewrite Eo, El.
  destruct (_ <? 0)%float; destruct A as (-> & _); [reflexivity|].
  now rewrite Ha.
Qed.

(** The particle of [life_case], as [activate] leaves it. *)
Lemma dead_after_update_witness :
  let w :=
    final (activate 0
             (fun range => mkOptions false 2 1 range 1 1 0 Undefined 0 0 0)
             10 20 1 2 (initial true)) in
  returns (Particle.update 0 0.5) w (fun _ w' =>
    Particle.dead 0 w' = Return (negb (active (particles w' 0))) w').
Proof.
  intros w. apply (dead_after_update 0 0.5 w).
  - intros r. unfold w.
    do 6 (try destruct r as [|r]); vm_compute; split; reflexivity.
  - right. split; reflexivity.
  - reflexivity.
  - reflexivity.
Defined.

(** * Spawning and updating *)

(** One vector operation further, with names for what it leaves. *)
Ltac vstep Ev L w' Ev' :=
  let r := fresh "r" in
  let P := fresh "P" in
  apply returns_bind; eapply returns_weaken;
  [ eapply L; try apply Ev; auto using vector_accepted, number_accepted
  | cbv beta; intros r w' P;
    assert (Ev' : evolves _ w')
      by (eapply evolves_trans; [exact Ev | apply P]) ].

(** The two vectors [eulerUpdate] answers are made by it. *)
Lemma eulerUpdate_fresh (p : ref) (dt : float) (w : world) :
  finite w -> forceable w p -> Vector.isNumber (dt * dt) = true ->
  returns (Utility.eulerUpdate Particle.applyForce p dt) w
    (fun r w' => evolves w w' /\
                 vectorCount w <= fst r /\ vectorCount w <= snd r).
Proof.
  intros F Hf Hdt. unfold Utility.eulerUpdate, particle, options_of.
  apply returns_bind, returns_gets.
  apply returns_bind. eapply returns_weaken; [apply clone_spec, F | cbv beta].
  intros oldPosition w1 (-> & Hn1 & Ev1).
  apply returns_bind. eapply returns_weaken;
    [apply clone_spec, Ev1 | cbv beta].
  intros newPosition w2 (-> & Hn2 & Ev2').
  assert (Ev2 : evolves w w2) by (eapply evolves_trans; eauto).
  vstep Ev2 add_spec w3 Ev3.
  apply returns_bind, returns_gets.
  assert (Fr : frame w3 = frame w) by apply Ev3.
  pose proof (forceable_frame _ _ p Fr Hf) as Hf3.
  apply frame_fields in Fr as (_ & Eo & Ep & _). rewrite <- Ep.
  vstep Ev3 applyForce_spec w4 Ev4.
  vstep Ev4 multiply_spec w5 Ev5.
  vstep Ev5 add_spec w6 Ev6.
  vstep Ev6 multiply_spec w7 Ev7.
  apply returns_ret. cbn [fst snd]. split; [exact Ev7|]. lia.
Qed.

Lemma release_all (object : ref) (p : Pool.t) :
  Pool.allObjects (Pool.release object p) = Pool.allObjects p /\
  Pool.maxSize (Pool.release object p) = Pool.maxSize p /\
  incl (Pool.activeObjects (Pool.release object p)) (Pool.activeObjects p).
Proof.
  unfold Pool.release.
  destruct (indexOf (Pool.activeObjects p) object);
    [|repeat split; apply incl_refl].
  destruct (indexOf (Pool.inactiveObjects p) object); cbn;
    repeat split; intros x Hx; eapply splice1_incl, Hx.
Qed.

Lemma release_sized (object : ref) (p : Pool.t) (n : nat) :
  pool_wf p -> sized n p -> sized n (Pool.release object p).
Proof.
  intros Hwf [Hl Hs]. pose proof Hwf as (_ & _ & (Hdisj & _) & _).
  unfold Pool.release.
  destruct (indexOf (Pool.activeObjects p) object) as [i|] eqn:Ei;
    [|now split].
  destruct (indexOf (Pool.inactiveObjects p) object) as [j|] eqn:Ej.
  { exfalso. apply (Hdisj object). eauto using indexOf_Some_In. }
  pose proof (Permutation_length (splice1_Permutation _ _ _ Ei)) as Hp.
  cbn in Hp. unfold sized, Pool.length in *. cbn. rewrite length_app. cbn.
  split; [exact Hl | lia].
Qed.

(** What [update] changes besides vectors: the position and the previous
    position of the particle, which become vectors made by the update;
    its [active] flag and callback; the lifespan and alpha in its
    options; the pool, when the particle is released. *)
Lemma update_effect (p : ref) (dt : float) (w : world) :
  finite w -> forceable w p -> Vector.isNumber (dt * dt) = true ->
  returns (Particle.update p dt) w (fun _ w' =>
    let o := options (particles w p) in
    finite w' /\ vectorCount w <= vectorCount w' /\
    emitterPosition w' = emitterPosition w /\
    (pool w' = pool w \/ pool w' = Pool.release p (pool w)) /\
    (forall q, q <> p -> particles w' q = particles w q) /\
    options (particles w' p) = o /\
    vectorCount w <= position (particles w' p) /\
    vectorCount w <= prevPosition (particles w' p) /\
    (forall r, r <> o -> optionsStore w' r = optionsStore w r) /\
    isStatic (optionsStore w' o) = isStatic (optionsStore w o) /\
    mass (optionsStore w' o) = mass (optionsStore w o) /\
    gravity (optionsStore w' o) = gravity (optionsStore w o) /\
    vx (optionsStore w' o) = vx (optionsStore w o) /\
    vy (optionsStore w' o) = vy (optionsStore w o)).
Proof.
  intros F Hf Hdt. unfold Particle.update.
  apply returns_bind. eapply returns_weaken;
    [apply eulerUpdate_fresh; assumption | cbv beta].
  intros [newPosition oldPosition] w1 ((F1 & Fr & Hn) & Hnew & Hold).
  cbn [fst snd] in Hnew, Hold.
  destruct w1 as [d1 v1 n1 o1 p1 c1 e1 l1 k1 h1 h21 log1].
  unfold frame in Fr. cbn in Fr, Hn.
  injection Fr as -> -> -> -> -> -> -> -> -> ->.
  unfold returns, bind, update_particle, update_options, options_of,
    Vector.get_y, Particle.destroy, particle, invoke, pool_release,
    modify, gets, ret.
  cbn [particles optionsStore vectors with_particles with_options].
  repeat (rewrite !upd_same;
          cbn [options set_position set_prevPosition set_active set_callback
               lifespan set_lifespan set_alpha lifeRange isStatic mass gravity]).
  destruct (_ - dt <? 0)%float.
  - unfold bind, update_particle, modify.
    cbn [particles with_particles with_options]. rewrite !upd_same.
    cbn [callback set_active set_position set_prevPosition].
    destruct (callback (particles w p)) as [[]|]; cbn;
      repeat (rewrite !upd_same; cbn);
      (split; [exact F1|]); (split; [exact Hn|]); (split; [reflexivity|]);
      (split; [(left; reflexivity) || (right; reflexivity)|]);
      (split; [intros q Hq; now rewrite !upd_other by exact Hq|]);
      (split; [reflexivity|]); (split; [exact Hnew|]); (split; [exact Hold|]);
      (split; [intros r Hr; now rewrite !upd_other by exact Hr|]);
      repeat split.
  - cbn. repeat (rewrite !upd_same; cbn).
    (split; [exact F1|]); (split; [exact Hn|]); (split; [reflexivity|]).
    (split; [left; reflexivity|]).
    (split; [intros q Hq; now rewrite !upd_other by exact Hq|]).
    (split; [reflexivity|]); (split; [exact Hnew|]); (split; [exact Hold|]).
    (split; [intros r Hr; now rewrite !upd_other by exact Hr|]).
    repeat split.
Qed.

(** An update takes the particle off the list: its position is a vector
    of its own from then on. *)
Lemma update_tracking (all : list ref) (o : ref) (x : OptionsObj) (E : ref)
    (unmoved : list ref) (p : ref) (dt : float) (w : world) :
  tracking all o x E unmoved w -> In p all ->
  Vector.isNumber (dt * dt) = true -> servable x ->
  returns (Particle.update p dt) w (fun _ w' =>
    tracking all o x E (remove Nat.eq_dec p unmoved) w').
Proof.
  intros (F & Hwf & Hsz & Hall & Hopt & Hvx & Hvy & (Hi & Hm & Hg)
          & HE & HEn & Hact) Hp Hdt Hs.
  assert (Hf : forceable w p).
  { unfold forceable, servable in *. now rewrite (Hopt p Hp), Hi, Hm, Hg. }
  eapply returns_weaken; [now apply update_effect | cbv beta zeta].
  intros _ w' (F' & Hn & Ee & Hpool & Hother & Eo & Hnew & Hold & _
               & Ei & Em & Eg & Ex & Ey).
  rewrite (Hopt p Hp) in *.
  destruct (release_all p (pool w)) as (Ra & Rm & Ri).
  assert (Hpool' : pool_wf (pool w') /\
                   sized (Pool.maxSize (pool w')) (pool w') /\
                   Pool.allObjects (pool w') = all /\
                   incl (Pool.activeObjects (pool w'))
                     (Pool.activeObjects (pool w))).
  { destruct Hpool as [-> | ->].
    - auto using incl_refl.
    - rewrite Rm, Ra. auto using release_wf, release_sized. }
  destruct Hpool' as (Hwf' & Hsz' & Hall' & Hincl).
  unfold tracking. rewrite Ei, Em, Eg, Ex, Ey, Ee.
  repeat match goal with |- _ /\ _ => split end;
    try assumption; try lia.
  - intros q Hq. destruct (Nat.eq_dec q p) as [->|Hne]; [exact Eo|].
    rewrite (Hother q Hne). now apply Hopt.
  - intros q Hq. destruct (Hact q (Hincl q Hq)) as [Hiff Hprev].
    destruct (Nat.eq_dec q p) as [->|Hne].
    + split; [split|lia]; [intros; lia|].
      intros Hin. apply remove_In in Hin. tauto.
    + rewrite (Hother q Hne). split; [|exact Hprev].
      rewrite Hiff. split.
      * intros Hin. now apply in_in_remove.
      * intros Hin. now apply in_remove in Hin.
Qed.

(** A spawn puts the particle it takes from the pool on the list: its
    position is the emitter's position object. *)
Lemma addParticles_tracking (all : list ref) (o : ref) (x : OptionsObj)
    (E : ref) (unmoved : list ref) (w : world) :
  tracking all o x E unmoved w ->
  returns Emitter.addParticles w (fun _ w' =>
    let unmoved' :=
      match fst (fst (Pool.acquire (pool w) w)) with
      | Some p => p :: unmoved
      | None => unmoved
      end in
    tracking all o x E unmoved' w' /\
    (incl (Pool.activeObjects (pool w)) unmoved ->
     incl (Pool.activeObjects (pool w')) unmoved') /\
    Pool.maxSize (pool w') = Pool.maxSize (pool w) /\
    length (Pool.activeObjects (pool w')) =
      Nat.min (S (length (Pool.activeObjects (pool w)))) (Pool.maxSize (pool w))).
Proof.
  intros (F & Hwf & [Hlen Hsz] & Hall & Hopt & Hvx & Hvy & Hs & HE & HEn & Hact).
  pose proof Hwf as (Ha & Hi & (Hdisj & Hin & Hcap) & Hfull).
  pose proof (acquire_wf (pool w) w Hwf) as Hwf'.
  unfold Emitter.addParticles. apply returns_bind.
  unfold returns at 1, Emitter.acquire.
  destruct (acquire_full (pool w) w Hfull) as [(y & rest & Ei & E')|[Ei E']];
    rewrite E' in *; cbn in Hwf'; cbv zeta; cbn [fst].
  - (* a particle is acquired *)
    assert (Hx : In y all).
    { rewrite <- Hall. apply Hin. right. rewrite Ei. apply in_app_iff.
      right. now left. }
    unfold options_of. apply returns_bind, returns_gets.
    cbn [particles optionsStore with_emitter]. rewrite (Hopt y Hx).
    apply returns_bind. eapply returns_weaken;
      [apply new_spec; [exact F | now apply numbers_accepted]|].
    cbv beta. intros vel w2 (-> & Hn2 & F2 & Fr2 & _).
    apply frame_fields in Fr2 as (_ & Eo2 & Ep2 & _ & Ee2 & Epool2 & _).
    cbn in Hn2, Eo2, Ep2, Ee2, Epool2.
    apply returns_bind, returns_gets. rewrite Ee2.
    eapply returns_weaken; [apply init_spec; exact F2|].
    cbv beta. intros _ w3 (F3 & Hn3 & Eo3 & Ee3 & Epool3 & Hother & Hmine).
    rewrite Eo2 in Eo3. rewrite Ee2 in Ee3. rewrite Epool2 in Epool3.
    rewrite Ep2 in Hother, Hmine.
    rewrite Ei, length_app in Hsz. cbn in Hsz.
    unfold tracking. rewrite Epool3, Eo3, Ee3.
    cbn [Pool.allObjects Pool.activeObjects Pool.inactiveObjects Pool.maxSize].
    repeat match goal with |- _ /\ _ => split end;
      try assumption; try apply Hs; try lia.
    + unfold sized, Pool.length. cbn. rewrite length_app. cbn.
      unfold Pool.length in Hlen. lia.
    + intros q Hq. destruct (Nat.eq_dec q y) as [->|Hne].
      * rewrite Hmine. cbn. now apply Hopt.
      * rewrite Hother by exact Hne. now apply Hopt.
    + intros q Hq. destruct (Nat.eq_dec q y) as [->|Hne].
      * rewrite Hmine. cbn. split; [split; [now left | now intros _]|lia].
      * rewrite Hother by exact Hne.
        assert (Hq' : In q (Pool.activeObjects (pool w)))
          by (apply in_app_iff in Hq as [Hq|[<-|[]]]; tauto).
        destruct (Hact q Hq') as [Hiff Hprev]. split; [|exact Hprev].
        rewrite Hiff. cbn. split; [tauto | intros [<-|Hq'']; tauto].
    + intros Hincl q Hq. apply in_app_iff in Hq as [Hq|[<-|[]]];
        [right; now apply Hincl | now left].
    + rewrite length_app. cbn [length]. lia.
  - (* the pool is exhausted *)
    apply returns_ret. rewrite Ei in Hsz. cbn in Hsz.
    unfold tracking.
    cbn [pool with_emitter emitterPosition particles optionsStore vectorCount].
    repeat match goal with |- _ /\ _ => split end;
      try assumption; try apply Hs; try lia.
    + split; [exact Hlen | rewrite Ei; exact Hsz].
    + now intros Hincl.
Qed.

Lemma loop_tracking (all : list ref) (o : ref) (x : OptionsObj) (E : ref)
    (ts : list tick) (unmoved : list ref) (w : world) :
  tracking all o x E unmoved w -> Forall (pooled x all) ts ->
  returns (loop ts unmoved) w (fun unmoved' w' =>
    tracking all o x E unmoved' w' /\
    ((forall t, In t ts -> t = Spawn) ->
     (incl (Pool.activeObjects (pool w)) unmoved ->
      incl (Pool.activeObjects (pool w')) unmoved') /\
     Pool.maxSize (pool w') = Pool.maxSize (pool w) /\
     length (Pool.activeObjects (pool w')) =
       Nat.min (length ts + length (Pool.activeObjects (pool w)))
         (Pool.maxSize (pool w)))).
Proof.
  revert unmoved w. induction ts as [|t ts IH]; intros unmoved w T Hts.
  - apply returns_ret. split; [exact T|]. intros _.
    split; [auto|]. split; [reflexivity|].
    destruct T as (_ & _ & [_ Hsz] & _). cbn. lia.
  - inversion Hts as [|? ? Ht Hts']; subst.
    destruct t as [|p dt]; cbn [loop].
    + unfold next_spawn. apply returns_bind, returns_gets.
      apply returns_bind. eapply returns_weaken;
        [apply addParticles_tracking, T | cbv beta zeta].
      intros _ w1 (T1 & Hincl1 & Hmax1 & Hlen1).
      eapply returns_weaken; [apply IH; [exact T1 | exact Hts'] | cbv beta].
      intros unmoved' w' [T' Hrest]. split; [exact T'|].
      intros Hall.
      destruct Hrest as (Hincl' & Hmax' & Hlen');
        [intros t Ht'; apply Hall; now right|].
      split; [auto|]. split; [congruence|].
      rewrite Hlen', Hlen1, Hmax1. cbn [length]. lia.
    + destruct Ht as (Hp & Hdt & Hs).
      apply returns_bind. eapply returns_weaken;
        [apply update_tracking; [exact T | exact Hp | exact Hdt | exact Hs]
        | cbv beta].
      intros _ w1 T1.
      eapply returns_weaken; [apply IH; [exact T1 | exact Hts'] | cbv beta].
      intros unmoved' w' [T' _]. split; [exact T'|].
      intros Hall. discriminate (Hall (Step p dt) (or_introl eq_refl)).
Qed.

(** The pooled particles of a new emitter. *)
Lemma emitter_new_all (position0 o : ref) (capacity : nat) (w : world) :
  finite w ->
  returns (Emitter.new position0 o capacity) w (fun _ w' =>
    Pool.allObjects (pool w') = seq (particleCount w) capacity).
Proof.
  intros F. unfold Emitter.new.
  apply returns_bind. eapply returns_weaken; [apply clone_spec, F | cbv beta].
  intros pos w1 (_ & _ & _ & Fr1 & _).
  apply frame_fields in Fr1 as (_ & _ & _ & En1 & _).
  apply returns_modify.
  pose proof (new_fills capacity o w1) as Hfst.
  destruct (Pool.new capacity o w1) as [pl w2]. cbn [fst] in Hfst. subst pl.
  cbn. now rewrite En1.
Qed.

(** C10, amended.  An emitter is made; then, in any order and any
    number, it is asked for particles and particles of its pool are
    updated.  The run answers the particles spawned and not updated
    since.  Of the active particles, exactly these have as their
    [position] the very object that is the emitter's position; no
    active particle has it as its [prevPosition].  When no update was
    made, these are all the active particles, as many as there were
    calls, up to the capacity.  So a write into the
    position of one of them, here of its [x], is what the emitter's
    position and the position of every other one of them then hold,
    and it leaves the position of every active particle that has been
    updated since its spawn as it was. *)
Theorem spawned_particles_share_position
    (position0 o : ref) (capacity : nat) (ts : list tick) (w : world) :
  finite w ->
  Vector.isNumber (vx (optionsStore w o)) = true ->
  Vector.isNumber (vy (optionsStore w o)) = true ->
  Forall (pooled (optionsStore w o) (seq (particleCount w) capacity)) ts ->
  returns (Emitter.new position0 o capacity;; loop ts []) w (fun unmoved w' =>
    (forall q, In q (Pool.activeObjects (pool w')) ->
       (position (particles w' q) = emitterPosition w' <-> In q unmoved) /\
       prevPosition (particles w' q) <> emitterPosition w') /\
    ((forall t, In t ts -> t = Spawn) ->
     length (Pool.activeObjects (pool w')) = Nat.min (length ts) capacity /\
     forall q, In q (Pool.activeObjects (pool w')) -> In q unmoved) /\
    (forall q v, In q (Pool.activeObjects (pool w')) -> In q unmoved ->
       returns (Vector.set_x (position (particles w' q)) v) w' (fun _ w'' =>
         values_0 (vectors w'' (emitterPosition w'')) = Vector.guard v /\
         forall q', In q' (Pool.activeObjects (pool w'')) ->
           (In q' unmoved ->
            vectors w'' (position (particles w'' q'))
              = vectors w'' (emitterPosition w'')) /\
           (~ In q' unmoved ->
            vectors w'' (position (particles w'' q'))
              = vectors w' (position (particles w' q')))))).
Proof.
  intros F Hvx Hvy Hts. apply returns_bind.
  eapply returns_weaken;
    [apply returns_and;
       [apply returns_and;
          [now apply emitter_new_spec | now apply emitter_new_options]
       | now apply emitter_new_all]
    | cbv beta].
  intros _ w1 [[(Hw1 & Hact1 & Hmax1) Eo1] Hall1].
  destruct Hw1 as (F1 & Hwf1 & Hsz1 & Hopt1 & Hvx1 & Hvy1 & HEn1 & _).
  assert (T1 : tracking (seq (particleCount w) capacity) o (optionsStore w o)
                 (emitterPosition w1) [] w1).
  { unfold tracking. rewrite Eo1, Hact1.
    repeat match goal with |- _ /\ _ => split end;
      try assumption; try reflexivity.
    - intros q Hq. apply Hopt1. now rewrite Hall1.
    - intros q []. }
  eapply returns_weaken; [apply loop_tracking; [exact T1 | exact Hts] | cbv beta].
  intros unmoved w' [T' Hincl'].
  destruct T' as (_ & _ & _ & _ & _ & _ & _ & _ & HE & _ & Hact).
  rewrite HE. split; [|split].
  - intros q Hq. destruct (Hact q Hq) as [Hiff Hprev]. split; [exact Hiff | lia].
  - intros Hall. destruct (Hincl' Hall) as (Hincl & _ & Hlen). split.
    + now rewrite Hlen, Hact1, Hmax1, Nat.add_0_r.
    + apply Hincl. rewrite Hact1. intros q [].
  - intros q v Hq Hin. destruct (Hact q Hq) as [Hiff _].
    unfold returns, Vector.set_x, modify.
    cbn [vectors with_vectors emitterPosition particles pool].
    rewrite (proj2 Hiff Hin), HE, upd_same. split; [reflexivity|].
    intros q' Hq'. destruct (Hact q' Hq') as [Hiff' _]. split.
    + intros Hin'. now rewrite (proj2 Hiff' Hin'), upd_same.
    + intros Hout. apply upd_other. tauto.
Qed.

(** An emitter with room for three particles spawns one and updates it,
    then spawns two more. *)
Lemma spawned_particles_share_position_witness :
  let w :=
    final (put_options 0 (mkOptions false 2 5 0 1 1 0 Undefined 0 0 0)
             (initial true)) in
  let ts := [Spawn; Step 2 0.5; Spawn; Spawn] in
  returns (Emitter.new 0 0 3;; loop ts []) w (fun unmoved w' =>
    (forall q, In q (Pool.activeObjects (pool w')) ->
       (position (particles w' q) = emitterPosition w' <-> In q unmoved) /\
       prevPosition (particles w' q) <> emitterPosition w') /\
    ((forall t, In t ts -> t = Spawn) ->
     length (Pool.activeObjects (pool w')) = Nat.min (length ts) 3 /\
     forall q, In q (Pool.activeObjects (pool w')) -> In q unmoved) /\
    (forall q v, In q (Pool.activeObjects (pool w')) -> In q unmoved ->
       returns (Vector.set_x (position (particles w' q)) v) w' (fun _ w'' =>
         values_0 (vectors w'' (emitterPosition w'')) = Vector.guard v /\
         forall q', In q' (Pool.activeObjects (pool w'')) ->
           (In q' unmoved ->
            vectors w'' (position (particles w'' q'))
              = vectors w'' (emitterPosition w'')) /\
           (~ In q' unmoved ->
            vectors w'' (position (particles w'' q'))
              = vectors w' (position (particles w' q')))))).
Proof.
  intros w ts.
  assert (F : finite w) by (intros r; split; reflexivity).
  apply (spawned_particles_share_position 0 0 3 ts w F);
    [reflexivity | reflexivity |].
  apply Forall_cons; [exact I|].
  apply Forall_cons;
    [split; [vm_compute; auto | split; [|right; split]; reflexivity]|].
  apply Forall_cons; [exact I|].
  apply Forall_cons; [exact I|].
  apply Forall_nil.
Defined.
